(** * Depends: a shallow embedding of [Depends::DAG] and [Depends::Depends]

    The C++ sources modelled here are [dag.hpp] (the DAG container),
    [details/node.hpp] (the node and its recursive [visit]) and
    [depends.hpp] (the dependency tracker built on two DAGs).

    Modelling choices:
    - a node pointer [node_type*] is a natural number, the address handed
      out by [new]; [nodes_] is the list of nodes in vector order;
    - an iterator into the DAG is a position in [nodes_]; [it.node()] is
      the node stored at that position;
    - [score_type] is [unsigned long], a 64-bit integer: scores are [Z]
      values in [0, 2^64) and the arithmetic wraps;
    - the transient [VISITED] flags, set and cleared by [ScopedFlag], are
      the list of currently flagged node addresses threaded through [visit];
    - a thrown exception is a [Throw] result next to the state the object
      was left in;
    - a call whose behaviour is undefined, or which never returns, ends in
      [Throw Undefined]; the interface runs below stop there. *)

From Stdlib Require Import ZArith.
From stdpp Require Import base numbers list sorting strings.

Open Scope Z_scope.

(** ** Results and exceptions *)

Inductive exn :=
| CircularReference
| InvalidArgument (msg : string)
| AssertionFailed
(** Not a C++ exception: the call has undefined behaviour or does not
    return, and nothing after it is modelled. *)
| Undefined.

Inductive result (A : Type) :=
| Ret (a : A)
| Throw (e : exn).
Arguments Ret {A} a.
Arguments Throw {A} e.

(** ** The DAG *)

Section DagModel.
Context {V : Type} `{EqDecision V}.

Definition addr := nat.

(** [score_type] is [unsigned long]. *)
Definition score_modulus : Z := 2 ^ 64.

(** [Details::Node]: [targets_], [value_], [score_]. *)
Record node := mkNode {
  node_addr : addr;
  value_ : V;
  score_ : Z;
  targets_ : list addr
}.

(** [DAG::nodes_]. *)
Definition dag := list node.

Definition addrs (g : dag) : list addr := node_addr <$> g.

Definition lookup_node (g : dag) (a : addr) : option node :=
  find (fun n => bool_decide (node_addr n = a)) g.

(** [a->targets_]; a dangling pointer never occurs in a well-formed DAG. *)
Definition targets_of (g : dag) (a : addr) : list addr :=
  match lookup_node g a with Some n => targets_ n | None => [] end.

Definition score_of (g : dag) (a : addr) : Z :=
  match lookup_node g a with Some n => score_ n | None => 0 end.

(** Modelled from the spec: [Details::ScopedFlag] (its header is not among
    the sources). The documentation in [documentation.hpp] says it "sets a
    flag on construction and clears the flag on destruction": inside its
    scope the node is flagged, after the scope (also when an exception
    unwinds it) the flags are as before. *)
Definition scoped_flag (flagged : list addr) (a : addr) : list addr :=
  a :: flagged.

(** The loop [for (auto target : targets_) target->visit(f, data);]: it
    stops at the first exception. The result is the list of nodes [f] was
    applied to, in order, and whether an exception escaped. *)
Fixpoint visit_targets (visit_one : addr -> list addr * bool) (ts : list addr)
    : list addr * bool :=
  match ts with
  | [] => ([], false)
  | t :: ts' =>
      let '(l1, thrown) := visit_one t in
      if thrown then (l1, true)
      else let '(l2, thrown2) := visit_targets visit_one ts' in (l1 ++ l2, thrown2)
  end.

(** [Node::visit(f, data)]: throw [CircularReference] on a flagged node,
    apply [f] to the node, then visit every target with the node flagged.
    [fuel] bounds the recursion depth; every recursive call flags one more
    node, so in a DAG of [n] nodes the fuel [S n] is never exhausted. *)
Fixpoint visit (fuel : nat) (g : dag) (flagged : list addr) (a : addr)
    : list addr * bool :=
  match fuel with
  | O => ([], true)
  | S k =>
      if decide (a ∈ flagged) then ([], true)
      else
        let '(l, thrown) :=
          visit_targets (visit k g (scoped_flag flagged a)) (targets_of g a) in
        (a :: l, thrown)
  end.

Definition visit_fuel (g : dag) : nat := S (length g).

(** Apply a score update [f] to node [a] (one call of the visitor lambda). *)
Definition update_score (f : Z -> Z) (g : dag) (a : addr) : dag :=
  (fun n => if decide (node_addr n = a)
            then mkNode (node_addr n) (value_ n) (f (score_ n)) (targets_ n)
            else n) <$> g.

Definition apply_scores (f : Z -> Z) (l : list addr) (g : dag) : dag :=
  fold_left (update_score f) l g.

Definition set_targets (g : dag) (a : addr) (ts : list addr) : dag :=
  (fun n => if decide (node_addr n = a)
            then mkNode (node_addr n) (value_ n) (score_ n) ts
            else n) <$> g.

(** [std::sort(nodes_, [](lhs, rhs){ return lhs->score_ < rhs->score_; })].
    The order of equal scores is unspecified by [std::sort]; the model
    uses a stable merge sort, one admissible implementation. *)
Definition score_le (n m : node) : Prop := score_ n <= score_ m.

#[global] Instance score_le_dec : RelDecision score_le :=
  fun n m => Z.le_dec (score_ n) (score_ m).

Definition sort_by_score (g : dag) : dag := merge_sort score_le g.

(** [std::sort(nodes_.begin(), nodes_.end())] on a [std::vector<node_type*>]:
    the pointers themselves are compared. *)
Definition addr_le (n m : node) : Prop := (node_addr n <= node_addr m)%nat.

#[global] Instance addr_le_dec : RelDecision addr_le :=
  fun n m => Nat.le_dec (node_addr n) (node_addr m).

Definition sort_by_addr (g : dag) : dag := merge_sort addr_le g.

(** [*node == val] in [DAG::insert]: [val] is converted to a [Node] by the
    implicit constructor [Node(const ValueType &)] (score 1, no targets)
    and compared by [Node::operator==]: same value, same score, as many
    targets, pairwise equal. *)
Definition node_eq_fresh (n : node) (v : V) : bool :=
  bool_decide (value_ n = v /\ score_ n = 1 /\ targets_ n = []).

(** [DAG::insert(val)]: prepend a fresh node of score 1 unless a node
    equals [Node(val)]. [a] is the address returned by [new]. A node
    holding [val] with another score or with targets does not stop the
    insertion. *)
Definition insert (g : dag) (v : V) (a : addr) : dag * bool :=
  if existsb (fun n => node_eq_fresh n v) g then (g, false)
  else (mkNode a v 1 [] :: g, true).

(** [DAG::link(iterator source, iterator target)], on the two nodes. *)
Definition link (g : dag) (s t : addr) : dag * result unit :=
  let '(_, thrown) := visit (visit_fuel g) g (scoped_flag [] s) t in
  if thrown then (g, Throw CircularReference)
  else
    let g1 := set_targets g s (targets_of g s ++ [t]) in
    let d := score_of g1 s in
    let '(l, thrown2) := visit (visit_fuel g1) g1 [] t in
    let g2 := apply_scores (fun x => (x + d) mod score_modulus) l g1 in
    if thrown2 then (g2, Throw CircularReference)
    else (sort_by_score g2, Ret tt).

(** [std::find(begin(), end(), v)]: the first node holding [v]. *)
Definition find_value (g : dag) (v : V) : option addr :=
  node_addr <$> find (fun n => bool_decide (value_ n = v)) g.

Definition value_of (g : dag) (a : addr) : option V :=
  value_ <$> lookup_node g a.

(** [DAG::link(value_type source, value_type target)]. *)
Definition link_val (g : dag) (s t : V) : dag * result unit :=
  match find_value g s, find_value g t with
  | Some sa, Some ta => link g sa ta
  | _, _ => (g, Throw (InvalidArgument "value not found"))
  end.

(** [DAG::linked(iterator source, iterator target)]. *)
Definition linked (g : dag) (s t : addr) : bool :=
  snd (visit (visit_fuel g) g (scoped_flag [] t) s).

(** [DAG::linked(value_type source, value_type target)]. *)
Definition linked_val (g : dag) (s t : V) : bool :=
  match find_value g s, find_value g t with
  | Some sa, Some ta => linked g sa ta
  | _, _ => false
  end.

(** [std::find] followed by [targets_.erase(where)]: the first occurrence. *)
Fixpoint remove_first (t : addr) (ts : list addr) : option (list addr) :=
  match ts with
  | [] => None
  | x :: ts' =>
      if decide (x = t) then Some ts'
      else (fun r => x :: r) <$> remove_first t ts'
  end.

(** [DAG::unlink(iterator source, iterator target)]. *)
Definition unlink (g : dag) (s t : addr) : dag * result bool :=
  let '(g1, rv) :=
    match remove_first t (targets_of g s) with
    | Some ts' => (set_targets g s ts', true)
    | None => (g, false)
    end in
  let d := score_of g1 s in
  let '(l, thrown) := visit (visit_fuel g1) g1 [] t in
  let g2 := apply_scores (fun x => (x - d) mod score_modulus) l g1 in
  if thrown then (g2, Throw CircularReference)
  else (sort_by_addr g2, Ret rv).

(** [DAG::unlink(iterator source, value_type target)]. *)
Definition unlink_to_val (g : dag) (s : addr) (v : V) : dag * result bool :=
  match find_value g v with
  | Some ta => unlink g s ta
  | None => (g, Throw (InvalidArgument "value not found"))
  end.

(** [DAG::unlink(value_type source, value_type target)]. *)
Definition unlink_val (g : dag) (s t : V) : dag * result bool :=
  match find_value g s, find_value g t with
  | Some sa, Some ta => unlink g sa ta
  | _, _ => (g, Throw (InvalidArgument "value not found"))
  end.

Definition edge_count (g : dag) : nat := sum_list_with (fun n => length (targets_ n)) g.

(** The loop of [DAG::erase(where)]:
    [while (!where.node()->targets_.empty())
       unlink(where, (where.node()->targets_[0])->value_);]
    [where] is a position in [nodes_], re-read at every iteration; a
    dangling [targets_[0]] is undefined. Every [unlink] sorts [nodes_] by
    address, so from the second iteration on an [unlink] that removes no
    edge leaves the order of [nodes_], the values and the targets as they
    were (only scores change): the next iteration does the same again and
    the loop never ends. So a loop still running after [2 + ] the number
    of edges iterations never ends; [fuel] counts the iterations and its
    exhaustion is [Undefined]. *)
Fixpoint erase_loop (fuel : nat) (g : dag) (p : nat) : dag * result unit :=
  match fuel with
  | O => (g, Throw Undefined)
  | S k =>
      match g !! p with
      | None => (g, Throw Undefined)
      | Some n =>
          match targets_ n with
          | [] => (g, Ret tt)
          | t :: _ =>
              match value_of g t with
              | None => (g, Throw Undefined)
              | Some tv =>
                  match unlink_to_val g (node_addr n) tv with
                  | (g', Ret _) => erase_loop k g' p
                  | (g', Throw e) => (g', Throw e)
                  end
              end
          end
      end
  end.

(** [DAG::erase(iterator where)]: empty the targets of the node at
    position [p] (the loop above), then remove every edge to the node now
    at [p], delete it and drop it from [nodes_]. The removal of the edges
    runs, for every node, [for (which = begin; which != end; )] with [end]
    read before the loop; [targets_.erase(which)] invalidates that [end],
    so the next comparison is undefined. The call is therefore defined
    only if no node has an edge to the erased node, and then the removal
    changes nothing. *)
Definition erase (g : dag) (p : nat) : dag * result unit :=
  match erase_loop (S (S (edge_count g))) g p with
  | (g1, Throw e) => (g1, Throw e)
  | (g1, Ret _) =>
      match g1 !! p with
      | None => (g1, Throw Undefined)
      | Some m =>
          if existsb (fun n => bool_decide (node_addr m ∈ targets_ n)) g1
          then (g1, Throw Undefined)
          else (delete p g1, Ret tt)
      end
  end.

(** Iteration front to back: [*it] for every position. *)
Definition values (g : dag) : list V := value_ <$> g.
Definition scores (g : dag) : list Z := score_ <$> g.

(** Operations of the DAG's interface, on iterators (positions). *)
Inductive dag_op :=
| OpInsert (v : V) (a : addr)
| OpLink (i j : nat)
| OpUnlink (i j : nat)
| OpErase (i : nat).

(** One call; exceptions are caught by the caller, who continues with the
    DAG as the call left it. [None]: the call's precondition fails (an
    invalid iterator, or [new] handing out a live address), or the call is
    [Undefined]. *)
Definition run_op (g : dag) (op : dag_op) : option dag :=
  match op with
  | OpInsert v a => if decide (a ∈ addrs g) then None else Some (insert g v a).1
  | OpLink i j =>
      match g !! i, g !! j with
      | Some ns, Some nt => Some (link g (node_addr ns) (node_addr nt)).1
      | _, _ => None
      end
  | OpUnlink i j =>
      match g !! i, g !! j with
      | Some ns, Some nt => Some (unlink g (node_addr ns) (node_addr nt)).1
      | _, _ => None
      end
  | OpErase i =>
      if decide (i < length g)%nat then
        match erase g i with
        | (_, Throw Undefined) => None
        | (g', _) => Some g'
        end
      else None
  end.

Fixpoint run_ops (g : dag) (ops : list dag_op) : option dag :=
  match ops with
  | [] => Some g
  | op :: ops' => match run_op g op with Some g' => run_ops g' ops' | None => None end
  end.

(** Sequential [insert] of values, each with the address [new] returns for
    it: the loop of [DAG::insert(first, last)], keeping each result. *)
Fixpoint insert_seq (g : dag) (vs : list (V * addr)) : dag * list bool :=
  match vs with
  | [] => (g, [])
  | (v, a) :: vs' =>
      let '(g1, b) := insert g v a in
      let '(g2, bs) := insert_seq g1 vs' in (g2, b :: bs)
  end.

(** DAG states reachable from the empty DAG through the interface, by
    calls with defined behaviour. *)
Definition reachable (g : dag) : Prop := exists ops, run_ops [] ops = Some g.

(** *** The edge relation and the invariants *)

Definition edge (g : dag) (a b : addr) : Prop :=
  exists n, n ∈ g /\ node_addr n = a /\ b ∈ targets_ n.

(** Reachability along edges (reflexive and transitive). *)
Inductive reaches (g : dag) : addr -> addr -> Prop :=
| reaches_refl a : reaches g a a
| reaches_step a b c : edge g a b -> reaches g b c -> reaches g a c.

(** Reachability along a non-empty path. *)
Definition reaches_plus (g : dag) (a b : addr) : Prop :=
  exists c, edge g a c /\ reaches g c b.

Definition acyclic (g : dag) : Prop := forall a b, edge g a b -> ~ reaches g b a.

(** No dangling pointer in [targets_]. *)
Definition closed (g : dag) : Prop :=
  forall n t, n ∈ g -> t ∈ targets_ n -> t ∈ addrs g.

Definition scores_in_range (g : dag) : Prop :=
  forall n, n ∈ g -> 0 <= score_ n < score_modulus.

(** The container's invariant: distinct addresses, no dangling target, no
    cycle, scores in range. *)
Definition dag_ok (g : dag) : Prop :=
  NoDup (addrs g) /\ closed g /\ acyclic g /\ scores_in_range g.

(** The number of paths from [a] to [x] (of at most [fuel - 1] edges). *)
Fixpoint count_paths (fuel : nat) (g : dag) (a x : addr) : nat :=
  match fuel with
  | O => O
  | S k => ((if decide (a = x) then 1 else 0)
            + sum_list_with (fun u => count_paths k g u x) (targets_of g a))%nat
  end.

(** Score propagation as one increment per reachable node: after a
    successful [link s t], every node reachable from [t] (and [t] itself)
    has gained the score of [s] exactly once. *)
Definition link_adds_once (g : dag) (s t : addr) : Prop :=
  (link g s t).2 = Ret tt ->
  forall x, reaches g t x ->
    score_of (link g s t).1 x = (score_of g x + score_of g s) mod score_modulus.

(** [DAG::erase(iterator begin, iterator end)]: [delete] every node of the
    range, then [nodes_.erase(begin.iter_, end.iter_)]. No target list is
    touched. [b] and [e] are positions in [nodes_]. *)
Definition erase_range (g : dag) (b e : nat) : dag := take b g ++ drop e g.

(** [DAG::clear()]: [erase(begin(), end())]. *)
Definition clear (g : dag) : dag := erase_range g 0 (length g).

End DagModel.

(** ** The dependency tracker *)

Section TrackerModel.
Context {V : Type} `{EqDecision V}.

(** [Depends<ValueType>]. The DAGs hold [pointer]s to the elements of
    [storage_]; [std::set] keeps one element per value at a stable address,
    so a pointer is identified with the value it points to. [selected_] is
    the selected element ([None] for a null [selected_]). [heap_] is the
    next address [new] hands out for a DAG node. *)
Record tracker := mkTracker {
  storage_ : list V;
  dependants_ : @dag V;
  prerequisites_ : @dag V;
  selected_ : option V;
  heap_ : addr
}.

Definition empty_tracker : tracker := mkTracker [] [] [] None 0%nat.

Definition set_dags (d : tracker) (dep pre : @dag V) : tracker :=
  mkTracker (storage_ d) dep pre (selected_ d) (heap_ d).

(** [clearSelection()]. *)
Definition clearSelection (d : tracker) : tracker :=
  mkTracker (storage_ d) (dependants_ d) (prerequisites_ d) None (heap_ d).

(** [find(v)]: an iterator to [v], [None] for [end()]. *)
Definition t_find (d : tracker) (v : V) : option V :=
  if decide (v ∈ storage_ d) then Some v else None.

(** [insert(v)]: into the set, then an alias node in [prerequisites_] and
    one in [dependants_]. *)
Definition t_insert (d : tracker) (v : V) : tracker * bool :=
  if decide (v ∈ storage_ d) then (d, false)
  else
    let a := heap_ d in
    let pre := (insert (prerequisites_ d) v a).1 in
    let dep := (insert (dependants_ d) v (S a)).1 in
    (mkTracker (storage_ d ++ [v]) dep pre (selected_ d) (S (S a)), true).

(** [select(const_iterator what)]. *)
Definition select_it (d : tracker) (what : option V) : tracker * result unit :=
  let d1 := clearSelection d in
  match what with
  | None => (d1, Throw (InvalidArgument "Cannot select end"))
  | Some v => (mkTracker (storage_ d1) (dependants_ d1) (prerequisites_ d1)
                 (Some v) (heap_ d1), Ret tt)
  end.

(** [select(const value_type & v)]: [select(insert(v).first)]. *)
Definition select (d : tracker) (v : V) : tracker * result unit :=
  select_it (t_insert d v).1 (Some v).

(** [addPrerequisite(const_iterator whence)]. *)
Definition addPrerequisite_it (d : tracker) (w : V) : tracker * result unit :=
  match selected_ d with
  | None => (d, Throw AssertionFailed)
  | Some s =>
      match link_val (prerequisites_ d) s w with
      | (pre, Throw e) => (set_dags d (dependants_ d) pre, Throw e)
      | (pre, Ret _) =>
          let '(dep, r) := link_val (dependants_ d) w s in
          (set_dags d dep pre, r)
      end
  end.

Definition addPrerequisite (d : tracker) (v : V) : tracker * result unit :=
  addPrerequisite_it (t_insert d v).1 v.

(** [addDependant(const_iterator whence)]. *)
Definition addDependant_it (d : tracker) (w : V) : tracker * result unit :=
  match selected_ d with
  | None => (d, Throw AssertionFailed)
  | Some s =>
      match link_val (dependants_ d) s w with
      | (dep, Throw e) => (set_dags d dep (prerequisites_ d), Throw e)
      | (dep, Ret _) =>
          let '(pre, r) := link_val (prerequisites_ d) w s in
          (set_dags d dep pre, r)
      end
  end.

Definition addDependant (d : tracker) (v : V) : tracker * result unit :=
  addDependant_it (t_insert d v).1 v.

(** [removePrerequisite(const_iterator whence)]. *)
Definition removePrerequisite_it (d : tracker) (w : option V) : tracker * result unit :=
  match selected_ d with
  | None => (d, Throw AssertionFailed)
  | Some s =>
      match w with
      | None => (d, Ret tt)
      | Some wv =>
          match unlink_val (prerequisites_ d) s wv with
          | (pre, Throw e) => (set_dags d (dependants_ d) pre, Throw e)
          | (pre, Ret was_prereq) =>
              match unlink_val (dependants_ d) wv s with
              | (dep, Throw e) => (set_dags d dep pre, Throw e)
              | (dep, Ret was_dep) =>
                  if bool_decide (was_dep = was_prereq)
                  then (set_dags d dep pre, Ret tt)
                  else (set_dags d dep pre, Throw AssertionFailed)
              end
          end
      end
  end.

Definition removePrerequisite (d : tracker) (v : V) : tracker * result unit :=
  removePrerequisite_it d (t_find d v).

(** [removeDependant(const_iterator whence)]. *)
Definition removeDependant_it (d : tracker) (w : option V) : tracker * result unit :=
  match selected_ d with
  | None => (d, Throw AssertionFailed)
  | Some s =>
      match w with
      | None => (d, Ret tt)
      | Some wv =>
          match unlink_val (dependants_ d) s wv with
          | (dep, Throw e) => (set_dags d dep (prerequisites_ d), Throw e)
          | (dep, Ret _) =>
              let '(pre, r) := unlink_val (prerequisites_ d) wv s in
              (set_dags d dep pre, match r with Ret _ => Ret tt | Throw e => Throw e end)
          end
      end
  end.

Definition removeDependant (d : tracker) (v : V) : tracker * result unit :=
  removeDependant_it d (t_find d v).

(** The values held by the nodes [f] was applied to. *)
Definition node_values (g : @dag V) (l : list addr) : list V :=
  omap (value_of g) l.

(** [getDependants(all)] (and, on the other DAG, [getPrerequisites]).
    The returned [std::set] is a duplicate-free list. Without a selection
    (or without a node for it) the C++ code dereferences an invalid
    pointer; the model reports [AssertionFailed] there. *)
Definition get_related (g : @dag V) (sel : option V) (all : bool) : result (list V) :=
  match sel with
  | None => Throw AssertionFailed
  | Some s =>
      match find_value g s with
      | None => Throw AssertionFailed
      | Some a =>
          if all then
            let '(l, thrown) := visit_targets (visit (visit_fuel g) g []) (targets_of g a) in
            if thrown then Throw CircularReference
            else Ret (remove_dups (node_values g l))
          else Ret (remove_dups (node_values g (targets_of g a)))
      end
  end.

Definition getDependants (d : tracker) (all : bool) : result (list V) :=
  get_related (dependants_ d) (selected_ d) all.

Definition getPrerequisites (d : tracker) (all : bool) : result (list V) :=
  get_related (prerequisites_ d) (selected_ d) all.

(** [depends(const_iterator target, const_iterator source)], with the
    consistency assertion of debug builds. *)
Definition depends_it (d : tracker) (target source : option V) : result bool :=
  match target, source with
  | Some t, Some s =>
      let in_dep := linked_val (dependants_ d) s t in
      let in_pre := linked_val (prerequisites_ d) t s in
      if bool_decide (in_dep = in_pre) then Ret in_dep else Throw AssertionFailed
  | _, _ => Ret false
  end.

Definition depends (d : tracker) (target source : V) : result bool :=
  depends_it d (t_find d target) (t_find d source).

(** [erase(iterator where)], [where] pointing at [v]. A [Throw Undefined]
    of [DAG::erase] ends the call in the same way; the tracker returned
    next to it is then of no meaning. *)
Definition erase_it (d : tracker) (v : V) : tracker * result unit :=
  let d1 := if bool_decide (selected_ d = Some v) then clearSelection d else d in
  let '(dep, r1, found_in_blockers) :=
    match list_find (fun n => value_ n = v) (dependants_ d1) with
    | Some (p, _) => let '(g, r) := erase (dependants_ d1) p in (g, r, true)
    | None => (dependants_ d1, Ret tt, false)
    end in
  match r1 with
  | Throw e => (set_dags d1 dep (prerequisites_ d1), Throw e)
  | Ret _ =>
      let '(pre, r2, found) :=
        match list_find (fun n => value_ n = v) (prerequisites_ d1) with
        | Some (p, _) => let '(g, r) := erase (prerequisites_ d1) p in (g, r, true)
        | None => (prerequisites_ d1, Ret tt, false)
        end in
      match r2 with
      | Throw e => (set_dags d1 dep pre, Throw e)
      | Ret _ =>
          let d2 := mkTracker (filter (fun x => x <> v) (storage_ d1)) dep pre
                      (selected_ d1) (heap_ d1) in
          if bool_decide (found = found_in_blockers) then (d2, Ret tt)
          else (d2, Throw AssertionFailed)
      end
  end.

(** [erase(const V & v)]: [while ((where = find(v)) != end()) erase(where);]
    the first [erase] removes [v] from [storage_], so the loop runs at most
    once. *)
Definition t_erase (d : tracker) (v : V) : tracker * result nat :=
  match t_find d v with
  | None => (d, Ret 0%nat)
  | Some _ =>
      let '(d', r) := erase_it d v in
      (d', match r with Ret _ => Ret 1%nat | Throw e => Throw e end)
  end.

(** The calls of the tracker's interface other than [erase]. An exception
    is caught by the caller, who goes on with the tracker as the call left
    it. *)
Inductive tracker_op :=
| TInsert (v : V)
| TSelect (v : V)
| TAddPrerequisite (v : V)
| TAddDependant (v : V)
| TRemovePrerequisite (v : V)
| TRemoveDependant (v : V).

Definition run_top (d : tracker) (op : tracker_op) : tracker :=
  match op with
  | TInsert v => (t_insert d v).1
  | TSelect v => (select d v).1
  | TAddPrerequisite v => (addPrerequisite d v).1
  | TAddDependant v => (addDependant d v).1
  | TRemovePrerequisite v => (removePrerequisite d v).1
  | TRemoveDependant v => (removeDependant d v).1
  end.

Definition run_tops (d : tracker) (ops : list tracker_op) : tracker := fold_left run_top ops d.

(** Trackers reachable from the empty tracker through these calls. *)
Definition tracker_reachable (d : tracker) : Prop :=
  exists ops, run_tops empty_tracker ops = d.

(** How many times the node of [y] is a target of the node of [x]. *)
Definition vcount (g : @dag V) (x y : V) : nat :=
  match find_value g x, find_value g y with
  | Some a, Some b => count_occ Nat.eq_dec (targets_of g a) b
  | _, _ => 0%nat
  end.

(** The tracker's invariant: each stored value has one node in each DAG,
    both DAGs are well formed, the addresses in use are below [heap_], the
    selection is stored, and every edge [x -> y] of [dependants_] is an
    edge [y -> x] of [prerequisites_], with the same multiplicity. *)
Definition tracker_ok (d : tracker) : Prop :=
  NoDup (storage_ d) /\
  values (dependants_ d) ≡ₚ storage_ d /\
  values (prerequisites_ d) ≡ₚ storage_ d /\
  dag_ok (dependants_ d) /\ dag_ok (prerequisites_ d) /\
  (forall a, a ∈ addrs (dependants_ d) ++ addrs (prerequisites_ d) -> (a < heap_ d)%nat) /\
  (forall s, selected_ d = Some s -> s ∈ storage_ d) /\
  (forall x y, vcount (dependants_ d) x y = vcount (prerequisites_ d) y x).

End TrackerModel.

(** ** Concrete scenarios, over [nat] values *)

(** Values 0 and 1 at addresses 1 and 2, then [link] of the node of 0 to
    the node of 1. *)
Definition ops_chain : list (@dag_op nat) :=
  [OpInsert 0%nat 1%nat; OpInsert 1%nat 2%nat; OpLink 1 0].

Definition dag_chain : @dag nat := default [] (run_ops [] ops_chain).

(** Values 0, 1, 2, 3 at addresses 1, 2, 3, 4, and the diamond
    [1 -> 2], [1 -> 3], [2 -> 3] on the values, given by positions. *)
Definition ops_diamond : list (@dag_op nat) :=
  [OpInsert 0%nat 1%nat; OpInsert 1%nat 2%nat; OpInsert 2%nat 3%nat; OpInsert 3%nat 4%nat;
   OpLink 2 1; OpLink 1 0; OpLink 3 2].

Definition dag_diamond : @dag nat := default [] (run_ops [] ops_diamond).

(** Values 0, 1, 2 at addresses 1, 2, 3; [link] from the node of 2 to the
    node of 0, then from the node of 1 to it, then [unlink] of the last. *)
Definition ops_relink : list (@dag_op nat) :=
  [OpInsert 0%nat 1%nat; OpInsert 1%nat 2%nat; OpInsert 2%nat 3%nat;
   OpLink 0 2; OpLink 1 2; OpUnlink 1 2].

(** Trackers, from the empty one. *)
Definition tr_insert (d : @tracker nat) (v : nat) : @tracker nat := (t_insert d v).1.
Definition tr_select (d : @tracker nat) (v : nat) : @tracker nat := (select d v).1.
Definition tr_addDependant (d : @tracker nat) (v : nat) : @tracker nat := (addDependant d v).1.

(** Values 0 and 1, 0 selected, no dependency. *)
Definition tr_pair : @tracker nat :=
  tr_select (tr_insert (tr_insert empty_tracker 0%nat) 1%nat) 0%nat.

(** [select(0).addDependant(1); select(1).addDependant(2); select(0)]. *)
Definition tr_chain : @tracker nat :=
  tr_select (tr_addDependant (tr_select (tr_addDependant
    (tr_select empty_tracker 0%nat) 1%nat) 1%nat) 2%nat) 0%nat.

(** Values 0, 1, 2, 3, with 1 depending on 0, 3 on 1 and 0 on 2. *)
Definition tr_deps : @tracker nat :=
  tr_addDependant (tr_select (tr_addDependant (tr_select (tr_addDependant
    (tr_select (fold_left tr_insert [0; 1; 2; 3]%nat empty_tracker) 0%nat)
    1%nat) 1%nat) 3%nat) 2%nat) 0%nat.

(** [tr_deps] after [erase(0)]. *)
Definition tr_deps_erased : @tracker nat := (t_erase tr_deps 0%nat).1.

(** The calls building [tr_chain], as [run_tops] runs them. *)
Definition ops_tr_chain : list (@tracker_op nat) :=
  [TSelect 0%nat; TAddDependant 1%nat; TSelect 1%nat; TAddDependant 2%nat; TSelect 0%nat].

(** ** Proofs about the DAG *)

Section DagProofs.
Context {V : Type} `{EqDecision V}.
Implicit Types (g : @dag V) (n : @node V).

(** *** Looking nodes up *)

Lemma lookup_node_Some g a n :
  lookup_node g a = Some n -> n ∈ g /\ node_addr n = a.
Proof.
  unfold lookup_node. induction g as [|m g IH]; simpl; [done|].
  case_bool_decide as Hm.
  - intros [= <-]. split; [apply elem_of_cons; by left|done].
  - intros H. destruct (IH H) as [Hin Ha]. split; [apply elem_of_cons; by right|done].
Qed.

Lemma lookup_node_complete g n :
  NoDup (addrs g) -> n ∈ g -> lookup_node g (node_addr n) = Some n.
Proof.
  unfold lookup_node, addrs. induction g as [|m g IH]; simpl; intros Hnd Hin.
  - by apply elem_of_nil in Hin.
  - apply NoDup_cons in Hnd as [Hm Hnd].
    apply elem_of_cons in Hin as [->|Hin].
    + by rewrite bool_decide_true.
    + rewrite bool_decide_false; [by apply IH|].
      intros Heq. apply Hm. rewrite Heq. by apply list_elem_of_fmap_2.
Qed.

Lemma lookup_node_None g a : lookup_node g a = None -> a ∉ addrs g.
Proof.
  unfold lookup_node, addrs. induction g as [|m g IH]; simpl; intros H.
  - apply not_elem_of_nil.
  - case_bool_decide; [done|]. apply not_elem_of_cons. split; [congruence|by apply IH].
Qed.

Lemma targets_of_edge g a b : b ∈ targets_of g a -> edge g a b.
Proof.
  unfold targets_of. destruct (lookup_node g a) as [n|] eqn:E.
  - intros Hb. apply lookup_node_Some in E as [Hin Ha]. by exists n.
  - by intros ?%elem_of_nil.
Qed.

Lemma edge_targets_of g a b : NoDup (addrs g) -> edge g a b -> b ∈ targets_of g a.
Proof.
  intros Hnd (n & Hin & <- & Hb). unfold targets_of. by rewrite lookup_node_complete.
Qed.

Lemma edge_closed g a b : closed g -> edge g a b -> b ∈ addrs g.
Proof. intros Hcl (n & Hn & _ & Hb). by eapply Hcl. Qed.

Lemma reaches_trans g a b c : reaches g a b -> reaches g b c -> reaches g a c.
Proof. induction 1; eauto using reaches_step. Qed.

(** *** The visit *)

Lemma visit_targets_thrown (f : addr -> list addr * bool) ts :
  (visit_targets f ts).2 = true <-> exists t, t ∈ ts /\ (f t).2 = true.
Proof.
  induction ts as [|t ts IH]; simpl.
  - split; [done|]. by intros (? & ?%elem_of_nil & _).
  - destruct (f t) as [l1 b1] eqn:Ef. destruct b1.
    + split; [|done]. intros _. exists t. rewrite Ef. split; [apply elem_of_cons; by left|done].
    + destruct (visit_targets f ts) as [l2 b2] eqn:Eg. simpl in *. rewrite IH. split.
      * intros (u & Hu & Hfu). exists u. split; [apply elem_of_cons; by right|done].
      * intros (u & [->|Hu]%elem_of_cons & Hfu); [by rewrite Ef in Hfu|]. eauto.
Qed.

(** In a DAG, [visit] throws exactly when a flagged node is reachable: the
    depth bound never triggers, and a node flagged by the visit itself is
    never met again because that would close a cycle. *)
Lemma visit_thrown_iff g fuel flagged a :
  dag_ok g -> a ∈ addrs g -> NoDup flagged -> flagged ⊆ addrs g ->
  (length g < fuel + length flagged)%nat ->
  (visit fuel g flagged a).2 = true <-> exists p, p ∈ flagged /\ reaches g a p.
Proof.
  intros (Hnd & Hcl & Hac & _).
  revert flagged a. induction fuel as [|k IH]; intros flagged a Ha Hfnd Hfsub Hlen.
  - exfalso.
    assert (length flagged <= length (addrs g))%nat as Hle.
    { apply submseteq_length, NoDup_submseteq; [done|]. intros x Hx. by apply Hfsub. }
    unfold addrs in Hle. rewrite length_fmap in Hle. lia.
  - simpl. destruct (decide (a ∈ flagged)) as [Hin|Hnin].
    + simpl. split; [|done]. intros _. exists a. split; [done|constructor].
    + assert (NoDup (scoped_flag flagged a)) as Hnd' by (by apply NoDup_cons).
      assert (scoped_flag flagged a ⊆ addrs g) as Hsub'.
      { intros x [->|Hx]%elem_of_cons; auto. }
      assert (length g < k + length (scoped_flag flagged a))%nat as Hlen'.
      { simpl. lia. }
      specialize (IH (scoped_flag flagged a)).
      destruct (visit_targets _ _) as [l thrown] eqn:Ev. simpl.
      change thrown with (l, thrown).2. rewrite <- Ev, visit_targets_thrown.
      split.
      * intros (t & Ht & Hvt).
        apply targets_of_edge in Ht.
        apply IH in Hvt as (p & Hp & Hr); [|by eapply edge_closed|done|done|done].
        apply elem_of_cons in Hp as [->|Hp].
        -- exfalso. by eapply Hac.
        -- exists p. split; [done|]. by eapply reaches_step.
      * intros (p & Hp & Hr). inversion Hr as [|? t ? Hat Htp]; subst; [done|].
        exists t. split; [by apply edge_targets_of|].
        apply IH; [by eapply edge_closed|done|done|done|].
        exists p. split; [apply elem_of_cons; by right|done].
Qed.

Lemma link_check_thrown g s t :
  dag_ok g -> s ∈ addrs g -> t ∈ addrs g ->
  (visit (visit_fuel g) g (scoped_flag [] s) t).2 = true <-> reaches g t s.
Proof.
  intros Hok Hs Ht. rewrite visit_thrown_iff; try done.
  - split.
    + by intros (p & [->|[]%elem_of_nil]%elem_of_cons & Hr).
    + intros Hr. exists s. split; [apply elem_of_cons; by left|done].
  - apply NoDup_singleton.
  - by intros x [->|[]%elem_of_nil]%elem_of_cons.
  - unfold visit_fuel; simpl; lia.
Qed.

Lemma visit_unflagged_not_thrown g t :
  dag_ok g -> t ∈ addrs g -> (visit (visit_fuel g) g [] t).2 = false.
Proof.
  intros Hok Ht. destruct (visit (visit_fuel g) g [] t).2 eqn:E; [|done].
  apply (visit_thrown_iff g (visit_fuel g) [] t) in E; try done.
  - by destruct E as (p & []%elem_of_nil & _).
  - constructor.
  - by intros x []%elem_of_nil.
  - unfold visit_fuel; simpl; lia.
Qed.

(** *** Operations that keep the edges *)

Lemma reaches_mono g g' a b :
  (forall x y, edge g' x y -> edge g x y) -> reaches g' a b -> reaches g a b.
Proof. intros Hsub. induction 1; eauto using reaches, reaches_step. Qed.

Lemma acyclic_mono g g' :
  (forall x y, edge g' x y -> edge g x y) -> acyclic g -> acyclic g'.
Proof.
  intros Hsub Hac a b Hab Hba. eapply Hac; [by apply Hsub|]. by eapply reaches_mono.
Qed.

Lemma addrs_fmap (h : @node V -> @node V) g :
  (forall n, node_addr (h n) = node_addr n) -> addrs (h <$> g) = addrs g.
Proof. intros Hh. unfold addrs. rewrite <- list_fmap_compose. apply list_fmap_ext. intros; simpl; auto. Qed.

Lemma lookup_node_fmap (h : @node V -> @node V) g a :
  (forall n, node_addr (h n) = node_addr n) ->
  lookup_node (h <$> g) a = h <$> lookup_node g a.
Proof.
  intros Hh. unfold lookup_node. induction g as [|n g IH]; simpl; [done|].
  rewrite Hh. by case_bool_decide.
Qed.

Lemma edge_fmap (h : @node V -> @node V) g a b :
  edge (h <$> g) a b <-> exists n, n ∈ g /\ node_addr (h n) = a /\ b ∈ targets_ (h n).
Proof.
  unfold edge. split.
  - intros (m & (n & -> & Hn)%list_elem_of_fmap & Hma & Hb). eauto.
  - intros (n & Hn & Hna & Hb). exists (h n). split; [by apply list_elem_of_fmap_2|done].
Qed.

(** A map over the nodes that changes scores only, within range. *)
Lemma dag_ok_scores_only (h : @node V -> @node V) g :
  (forall n, node_addr (h n) = node_addr n) -> (forall n, targets_ (h n) = targets_ n) ->
  (forall n, 0 <= score_ n < score_modulus -> 0 <= score_ (h n) < score_modulus) ->
  dag_ok g -> dag_ok (h <$> g).
Proof.
  intros Ha Ht Hs (Hnd & Hcl & Hac & Hr). split_and!.
  - by rewrite addrs_fmap.
  - intros m t (n & -> & Hn)%list_elem_of_fmap Hm. rewrite addrs_fmap by done.
    rewrite Ht in Hm. by eapply Hcl.
  - eapply acyclic_mono; [|exact Hac]. intros x y Hxy.
    apply (edge_fmap h) in Hxy as (n & Hn & Hx & Hy).
    exists n. rewrite Ha in Hx. rewrite Ht in Hy. done.
  - intros m (n & -> & Hn)%list_elem_of_fmap. by apply Hs, Hr.
Qed.

Lemma score_update_in_range (f : Z -> Z) n a :
  (forall x, 0 <= f x < score_modulus) ->
  0 <= score_ n < score_modulus ->
  0 <= score_ (if decide (node_addr n = a)
               then mkNode (node_addr n) (value_ n) (f (score_ n)) (targets_ n)
               else n) < score_modulus.
Proof. intros Hf Hn. destruct (decide _); simpl; auto. Qed.

Lemma dag_ok_apply_scores (f : Z -> Z) l g :
  (forall x, 0 <= f x < score_modulus) -> dag_ok g -> dag_ok (apply_scores f l g).
Proof.
  intros Hf. unfold apply_scores. revert g. induction l as [|a l IH]; intros g Hok; simpl; [done|].
  apply IH. unfold update_score. apply dag_ok_scores_only; [by intros n; destruct (decide _)..| |done].
  intros n Hn. by apply score_update_in_range.
Qed.

Lemma edge_apply_scores (f : Z -> Z) l g a b :
  edge (apply_scores f l g) a b <-> edge g a b.
Proof.
  unfold apply_scores. revert g. induction l as [|c l IH]; intros g; simpl; [done|].
  rewrite IH. unfold update_score. rewrite (edge_fmap (fun n => if decide (node_addr n = c)
    then mkNode (node_addr n) (value_ n) (f (score_ n)) (targets_ n) else n)). split.
  - intros (n & Hn & Hna & Hb). exists n. destruct (decide _); simpl in *; done.
  - intros (n & Hn & Hna & Hb). exists n. destruct (decide _); simpl in *; done.
Qed.

Lemma addrs_apply_scores (f : Z -> Z) l g : addrs (apply_scores f l g) = addrs g.
Proof.
  unfold apply_scores. revert g. induction l as [|c l IH]; intros g; simpl; [done|].
  rewrite IH. unfold update_score. apply addrs_fmap. intros n. by destruct (decide _).
Qed.

Lemma mod_in_range x : 0 <= x mod score_modulus < score_modulus.
Proof. apply Z.mod_pos_bound. unfold score_modulus. lia. Qed.

Lemma dag_ok_perm g g' : g' ≡ₚ g -> dag_ok g -> dag_ok g'.
Proof.
  intros Hp (Hnd & Hcl & Hac & Hr).
  assert (addrs g' ≡ₚ addrs g) as Hpa by (unfold addrs; by rewrite Hp).
  assert (forall n, n ∈ g' <-> n ∈ g) as Hin by (intros n; by rewrite Hp).
  split_and!.
  - by rewrite Hpa.
  - intros n t Hn Ht. rewrite Hpa. eapply Hcl; [by apply Hin|done].
  - eapply acyclic_mono; [|exact Hac]. intros a b (n & Hn & ? & ?). exists n. by rewrite <- Hin.
  - intros n Hn. by apply Hr, Hin.
Qed.

(** *** Changing the targets of one node *)

Lemma edge_set_targets g s ts a b :
  edge (set_targets g s ts) a b -> (a = s /\ b ∈ ts) \/ (a <> s /\ edge g a b).
Proof.
  unfold set_targets. intros Hab.
  apply (edge_fmap (fun n => if decide (node_addr n = s)
    then mkNode (node_addr n) (value_ n) (score_ n) ts else n)) in Hab as (n & Hn & Hna & Hb).
  destruct (decide (node_addr n = s)); simpl in *; [left; split; [congruence|done]|].
  right. split; [congruence|]. by exists n.
Qed.

Lemma addrs_set_targets g s ts : addrs (set_targets g s ts) = addrs g.
Proof. apply addrs_fmap. intros n. by destruct (decide _). Qed.

Lemma targets_of_set_targets_ne g s ts y :
  y <> s -> targets_of (set_targets g s ts) y = targets_of g y.
Proof.
  intros Hne. unfold targets_of, set_targets.
  rewrite lookup_node_fmap by (intros n; by destruct (decide _)).
  destruct (lookup_node g y) as [n|] eqn:E; simpl; [|done].
  apply lookup_node_Some in E as [_ <-]. by rewrite decide_False.
Qed.

Lemma score_of_set_targets g s ts y : score_of (set_targets g s ts) y = score_of g y.
Proof.
  unfold score_of, set_targets.
  rewrite lookup_node_fmap by (intros n; by destruct (decide _)).
  destruct (lookup_node g y) as [n|]; simpl; [|done]. by destruct (decide _).
Qed.

(** Replacing the targets of [s] by some of its targets. *)
Lemma dag_ok_set_targets_sub g s ts :
  dag_ok g -> (forall x, x ∈ ts -> x ∈ targets_of g s) -> dag_ok (set_targets g s ts).
Proof.
  intros (Hnd & Hcl & Hac & Hr) Hts.
  assert (forall a b, edge (set_targets g s ts) a b -> edge g a b) as Hsub.
  { intros a b [[-> Hb]|[_ Hab]]%edge_set_targets; [|done]. by apply targets_of_edge, Hts. }
  split_and!.
  - by rewrite addrs_set_targets.
  - intros n t Hn Ht. rewrite addrs_set_targets. eapply edge_closed; [done|].
    apply Hsub. by exists n.
  - by eapply acyclic_mono.
  - unfold set_targets. intros m (n & -> & Hn)%list_elem_of_fmap.
    destruct (decide _); simpl; by apply Hr.
Qed.

(** Adding the edge [s -> t] when [s] is not reachable from [t]. *)
Lemma reaches_add_edge g s t x y :
  reaches (set_targets g s (targets_of g s ++ [t])) x y ->
  reaches g x y \/ (reaches g x s /\ reaches g t y).
Proof.
  induction 1 as [a|a b c Hab Hbc IH].
  - left. constructor.
  - apply edge_set_targets in Hab as [[-> [Hb|Hb%list_elem_of_singleton]%elem_of_app]|[_ Hab]]; try subst.
    + apply targets_of_edge in Hb. destruct IH as [IH|[IH1 IH2]].
      * left. by eapply reaches_step.
      * right. split; [by eapply reaches_step|done].
    + right. split; [constructor|]. destruct IH as [IH|[_ IH]]; done.
    + destruct IH as [IH|[IH1 IH2]].
      * left. by eapply reaches_step.
      * right. split; [by eapply reaches_step|done].
Qed.

Lemma dag_ok_add_edge g s t :
  dag_ok g -> t ∈ addrs g -> ~ reaches g t s ->
  dag_ok (set_targets g s (targets_of g s ++ [t])).
Proof.
  intros (Hnd & Hcl & Hac & Hr) Ht Hnr. split_and!.
  - by rewrite addrs_set_targets.
  - intros n u Hn Hu. rewrite addrs_set_targets.
    destruct (edge_set_targets g s (targets_of g s ++ [t]) (node_addr n) u)
      as [[_ [Hu'|Hu'%list_elem_of_singleton]%elem_of_app]|[_ Hu']]; try subst; [by exists n| | |].
    + by eapply edge_closed, targets_of_edge.
    + done.
    + by eapply edge_closed.
  - intros a b Hab Hba. apply reaches_add_edge in Hba.
    apply edge_set_targets in Hab as [[-> [Hb|Hb%list_elem_of_singleton]%elem_of_app]|[_ Hab]]; try subst.
    + apply targets_of_edge in Hb. destruct Hba as [Hba|[Hbs Hta]].
      * by eapply Hac.
      * apply Hnr. eapply reaches_trans; [exact Hta|]. by eapply reaches_step.
    + destruct Hba as [Hba|[Hba _]]; done.
    + destruct Hba as [Hba|[Hbs Hta]].
      * by eapply Hac.
      * apply Hnr. eapply reaches_trans; [exact Hta|]. by eapply reaches_step.
  - unfold set_targets. intros m (n & -> & Hn)%list_elem_of_fmap.
    destruct (decide _); simpl; by apply Hr.
Qed.

(** *** The interface operations keep a well-formed DAG *)

Lemma link_dag_ok g s t :
  dag_ok g -> s ∈ addrs g -> t ∈ addrs g -> dag_ok (link g s t).1.
Proof.
  intros Hok Hs Ht. unfold link.
  destruct (visit _ g (scoped_flag [] s) t) as [l0 thrown] eqn:E0.
  destruct thrown; [done|].
  assert (~ reaches g t s) as Hnr.
  { intros Hr. apply (link_check_thrown g s t Hok Hs Ht) in Hr. by rewrite E0 in Hr. }
  pose proof (dag_ok_add_edge g s t Hok Ht Hnr) as Hok1.
  destruct (visit _ _ [] t) as [l thrown2].
  destruct thrown2; simpl.
  - apply dag_ok_apply_scores; [intros; apply mod_in_range|done].
  - eapply dag_ok_perm; [apply merge_sort_Permutation|].
    apply dag_ok_apply_scores; [intros; apply mod_in_range|done].
Qed.

Lemma remove_first_sub t ts ts' :
  remove_first t ts = Some ts' -> forall x, x ∈ ts' -> x ∈ ts.
Proof.
  revert ts'. induction ts as [|y ts IH]; intros ts' H x Hx; simpl in H; [done|].
  destruct (decide (y = t)).
  - injection H as <-. apply elem_of_cons. by right.
  - destruct (remove_first t ts) as [r|] eqn:E; simpl in H; [|done]. injection H as <-.
    apply elem_of_cons in Hx as [->|Hx]; apply elem_of_cons; [by left|]. right. by eapply IH.
Qed.

Lemma unlink_dag_ok g s t : dag_ok g -> dag_ok (unlink g s t).1.
Proof.
  intros Hok. unfold unlink.
  assert (exists g1 rv, (match remove_first t (targets_of g s) with
                         | Some ts' => (set_targets g s ts', true)
                         | None => (g, false) end) = (g1, rv) /\ dag_ok g1)
    as (g1 & rv & -> & Hok1).
  { destruct (remove_first t (targets_of g s)) as [ts'|] eqn:E; eexists _, _; split; try done.
    apply dag_ok_set_targets_sub; [done|]. by eapply remove_first_sub. }
  destruct (visit _ g1 [] t) as [l thrown].
  destruct thrown; simpl.
  - apply dag_ok_apply_scores; [intros; apply mod_in_range|done].
  - eapply dag_ok_perm; [apply merge_sort_Permutation|].
    apply dag_ok_apply_scores; [intros; apply mod_in_range|done].
Qed.

Lemma unlink_to_val_dag_ok g s v : dag_ok g -> dag_ok (unlink_to_val g s v).1.
Proof. intros Hok. unfold unlink_to_val. destruct (find_value g v); [by apply unlink_dag_ok|done]. Qed.

Lemma erase_loop_dag_ok fuel g p : dag_ok g -> dag_ok (erase_loop fuel g p).1.
Proof.
  revert g. induction fuel as [|k IH]; intros g Hok; simpl; [done|].
  destruct (g !! p) as [n|]; [|done]. destruct (targets_ n) as [|t ts]; [done|].
  destruct (value_of g t) as [tv|]; [|done].
  pose proof (unlink_to_val_dag_ok g (node_addr n) tv Hok) as Hok'.
  destruct (unlink_to_val g (node_addr n) tv) as [g' [u|e]]; simpl in *; [by apply IH|done].
Qed.

Lemma elem_of_delete_ne {A} (l : list A) p x y :
  l !! p = Some y -> x ∈ l -> x <> y -> x ∈ delete p l.
Proof.
  intros Hp Hx Hne. rewrite delete_take_drop.
  rewrite <- (take_drop_middle l p y Hp) in Hx.
  apply elem_of_app in Hx as [Hx|[->|Hx]%elem_of_cons]; [|done|]; apply elem_of_app; auto.
Qed.

(** Dropping a node no edge points to keeps a DAG well formed. *)
Lemma dag_ok_erase_node g p m :
  dag_ok g -> g !! p = Some m ->
  (forall n, n ∈ g -> node_addr m ∉ targets_ n) ->
  dag_ok (delete p g).
Proof.
  intros (Hnd & Hcl & Hac & Hr) Hp Hnin.
  assert (Hsub : delete p g `sublist_of` g) by apply sublist_delete.
  assert (Hin : forall n, n ∈ delete p g -> n ∈ g) by (intros n Hn; by eapply elem_of_sublist).
  split_and!.
  - apply (sublist_NoDup (addrs (delete p g)) (addrs g)); [exact Hnd|unfold addrs; by apply fmap_sublist].
  - intros n t Hn Ht.
    assert (Ht' : t ∈ addrs g) by (eapply Hcl; [apply Hin|]; done).
    apply list_elem_of_fmap in Ht' as (n' & -> & Hn').
    apply list_elem_of_fmap_2, (elem_of_delete_ne _ p _ m); [done|done|].
    intros ->. by apply (Hnin n (Hin n Hn)).
  - eapply acyclic_mono; [|exact Hac]. intros a b (n & Hn & Hna & Hb).
    exists n. split_and!; [by apply Hin|done|done].
  - intros n Hn. by apply Hr, Hin.
Qed.

Lemma erase_dag_ok g p : dag_ok g -> dag_ok (erase g p).1.
Proof.
  intros Hok. unfold erase.
  pose proof (erase_loop_dag_ok (S (S (edge_count g))) g p Hok) as Hok1.
  destruct (erase_loop _ g p) as [g1 [u|e]]; simpl in *; [|done].
  destruct (g1 !! p) as [m|] eqn:Hm; simpl; [|done].
  destruct (existsb _ g1) eqn:Hex; simpl; [done|].
  apply (dag_ok_erase_node g1 p m Hok1 Hm). intros n Hn Hin.
  assert (Htrue : existsb (fun n => bool_decide (node_addr m ∈ targets_ n)) g1 = true).
  { apply existsb_exists. exists n. split; [by apply list_elem_of_In|by apply bool_decide_eq_true]. }
  congruence.
Qed.

Lemma insert_dag_ok g v a : dag_ok g -> a ∉ addrs g -> dag_ok (insert g v a).1.
Proof.
  intros (Hnd & Hcl & Hac & Hr) Ha. unfold insert. destruct (existsb _ g); simpl; [by split_and!|].
  split_and!.
  - unfold addrs; simpl. by apply NoDup_cons_2.
  - intros n t [->|Hn]%elem_of_cons Ht; simpl in *; [by apply not_elem_of_nil in Ht|].
    unfold addrs; simpl. apply elem_of_cons. right. by eapply Hcl.
  - eapply acyclic_mono; [|exact Hac]. intros x y (n & [->|Hn]%elem_of_cons & Hx & Hy);
      simpl in *; [by apply not_elem_of_nil in Hy|]. by exists n.
  - intros n [->|Hn]%elem_of_cons; simpl; [unfold score_modulus; lia|by apply Hr].
Qed.

Lemma lookup_addrs g i n : g !! i = Some n -> node_addr n ∈ addrs g.
Proof. intros H. apply list_elem_of_fmap_2. by eapply list_elem_of_lookup_2. Qed.

Lemma run_op_dag_ok g op g' : dag_ok g -> run_op g op = Some g' -> dag_ok g'.
Proof.
  intros Hok H. destruct op as [v a|i j|i j|i]; simpl in H.
  - destruct (decide (a ∈ addrs g)); [done|]. injection H as <-. by apply insert_dag_ok.
  - destruct (g !! i) as [ns|] eqn:Hi, (g !! j) as [nt|] eqn:Hj; try done. injection H as <-.
    apply link_dag_ok; [done|by eapply lookup_addrs..].
  - destruct (g !! i) as [ns|] eqn:Hi, (g !! j) as [nt|] eqn:Hj; try done. injection H as <-.
    by apply unlink_dag_ok.
  - destruct (decide _); [|done]. pose proof (erase_dag_ok g i Hok) as He.
    destruct (erase g i) as [g1 [u|[| | |]]]; simpl in *; try done; by injection H as <-.
Qed.

Lemma run_ops_dag_ok ops g g' : dag_ok g -> run_ops g ops = Some g' -> dag_ok g'.
Proof.
  revert g. induction ops as [|op ops IH]; intros g Hok H; simpl in H; [by injection H as <-|].
  destruct (run_op g op) as [g1|] eqn:E; [|done]. eapply IH; [|exact H]. by eapply run_op_dag_ok.
Qed.

Lemma dag_ok_nil : dag_ok (@nil (@node V)).
Proof.
  split_and!.
  - constructor.
  - intros n t Hn. by apply not_elem_of_nil in Hn.
  - intros a b (n & Hn & _). by apply not_elem_of_nil in Hn.
  - intros n Hn. by apply not_elem_of_nil in Hn.
Qed.

Lemma reachable_dag_ok g : reachable g -> dag_ok g.
Proof. intros [ops H]. eapply run_ops_dag_ok; [apply dag_ok_nil|exact H]. Qed.

(** *** The outcome of [link] *)

Lemma link_outcome g s t :
  dag_ok g -> s ∈ addrs g -> t ∈ addrs g ->
  (reaches g t s /\ link g s t = (g, Throw CircularReference)) \/
  (~ reaches g t s /\ (link g s t).2 = Ret tt).
Proof.
  intros Hok Hs Ht. unfold link.
  pose proof (link_check_thrown g s t Hok Hs Ht) as Hiff.
  destruct (visit _ g (scoped_flag [] s) t) as [l0 thrown] eqn:E0. simpl in Hiff.
  destruct thrown.
  - left. split; [by apply Hiff|done].
  - right. assert (Hnr : ~ reaches g t s) by (intros Hr; apply Hiff in Hr; done).
    split; [done|].
    pose proof (dag_ok_add_edge g s t Hok Ht Hnr) as Hok1.
    assert (Ht1 : t ∈ addrs (set_targets g s (targets_of g s ++ [t])))
      by by rewrite addrs_set_targets.
    pose proof (visit_unflagged_not_thrown _ t Hok1 Ht1) as Hv.
    destruct (visit _ _ [] t) as [l thrown2]. simpl in Hv. by subst.
Qed.

Lemma edge_add_edge_mono g s t a b :
  NoDup (addrs g) -> edge g a b -> edge (set_targets g s (targets_of g s ++ [t])) a b.
Proof.
  intros Hnd (n & Hn & Hna & Hb). unfold set_targets.
  apply (edge_fmap (fun n => if decide (node_addr n = s)
    then mkNode (node_addr n) (value_ n) (score_ n) (targets_of g s ++ [t]) else n)).
  exists n. split; [done|]. destruct (decide (node_addr n = s)) as [Hs|]; simpl; [|done].
  split; [done|]. apply elem_of_app. left.
  unfold targets_of. by rewrite <- Hs, (lookup_node_complete g n).
Qed.

(** Adding [s -> t] closes a cycle exactly when [t] reaches [s]. *)
Lemma add_edge_cycle_iff g s t :
  dag_ok g -> s ∈ addrs g -> t ∈ addrs g ->
  (exists a, reaches_plus (set_targets g s (targets_of g s ++ [t])) a a) <-> reaches g t s.
Proof.
  intros Hok Hs Ht. split.
  - intros (a & c & Hac & Hca).
    pose proof (link_check_thrown g s t Hok Hs Ht) as Hiff.
    destruct (visit (visit_fuel g) g (scoped_flag [] s) t).2; [by apply Hiff|].
    assert (Hnr : ~ reaches g t s) by (intros Hr; apply Hiff in Hr; done).
    exfalso. destruct (dag_ok_add_edge g s t Hok Ht Hnr) as (_ & _ & Hac1 & _).
    by eapply Hac1.
  - intros Hr. exists s, t. split.
    + apply list_elem_of_fmap in Hs as (n & -> & Hn). unfold set_targets.
      apply (edge_fmap (fun m => if decide (node_addr m = node_addr n)
        then mkNode (node_addr m) (value_ m) (score_ m) (targets_of g (node_addr n) ++ [t])
        else m)).
      exists n. rewrite decide_True by done. simpl. split; [done|]. split; [done|].
      apply elem_of_app. right. by apply list_elem_of_singleton.
    + eapply reaches_mono; [|exact Hr]. intros x y Hxy.
      apply edge_add_edge_mono; [|done]. by destruct Hok.
Qed.

(** *** Counting the visits of a node *)

Lemma visit_targets_count (f : addr -> list addr * bool) (c : addr -> nat) ts x :
  (forall u, u ∈ ts -> (f u).2 = false -> count_occ Nat.eq_dec (f u).1 x = c u) ->
  (visit_targets f ts).2 = false ->
  count_occ Nat.eq_dec (visit_targets f ts).1 x = sum_list_with c ts.
Proof.
  induction ts as [|u ts IH]; intros Hf Hv; simpl in *; [done|].
  assert (IH' : (visit_targets f ts).2 = false ->
                count_occ Nat.eq_dec (visit_targets f ts).1 x = sum_list_with c ts).
  { apply IH. intros v Hv'. apply Hf, elem_of_cons. by right. }
  assert (H1 := Hf u (proj2 (elem_of_cons _ _ _) (or_introl eq_refl))).
  destruct (f u) as [l1 th] eqn:E. destruct th; [done|]. simpl in H1.
  destruct (visit_targets f ts) as [l2 th2] eqn:E2. simpl in *. subst th2.
  rewrite count_occ_app. specialize (H1 eq_refl). specialize (IH' eq_refl). unfold addr in *. lia.
Qed.

Lemma visit_count g fuel flagged a x :
  (visit fuel g flagged a).2 = false ->
  count_occ Nat.eq_dec (visit fuel g flagged a).1 x = count_paths fuel g a x.
Proof.
  revert flagged a. induction fuel as [|k IH]; intros flagged a Hv; simpl in *; [done|].
  destruct (decide (a ∈ flagged)); simpl in *; [done|].
  pose proof (visit_targets_count (visit k g (scoped_flag flagged a))
                (fun u => count_paths k g u x) (targets_of g a) x
                (fun u _ Hu => IH _ u Hu)) as Hc.
  destruct (visit_targets _ (targets_of g a)) as [l th] eqn:E. simpl in *. subst th.
  rewrite <- Hc by done. simpl.
  destruct (Nat.eq_dec a x); destruct (decide (a = x)); lia.
Qed.

Lemma addrs_update_score f g a : addrs (update_score f g a) = addrs g.
Proof. apply addrs_fmap. intros n. by destruct (decide _). Qed.

Lemma score_of_update_score f g a x :
  x ∈ addrs g ->
  score_of (update_score f g a) x = if decide (x = a) then f (score_of g x) else score_of g x.
Proof.
  intros Hx. unfold score_of, update_score.
  rewrite lookup_node_fmap by (intros n; by destruct (decide _)).
  destruct (lookup_node g x) as [n|] eqn:E; simpl.
  - apply lookup_node_Some in E as [_ <-]. by destruct (decide (node_addr n = a)).
  - by apply lookup_node_None in E.
Qed.

Lemma score_of_apply_scores f l g x :
  x ∈ addrs g ->
  score_of (apply_scores f l g) x = Nat.iter (count_occ Nat.eq_dec l x) f (score_of g x).
Proof.
  unfold apply_scores. revert g. induction l as [|a l IH]; intros g Hx; simpl; [done|].
  rewrite IH by (by rewrite addrs_update_score). rewrite score_of_update_score by done.
  destruct (decide (x = a)) as [<-|Hne]; destruct (Nat.eq_dec _ x); try congruence.
  by rewrite Nat.iter_succ_r.
Qed.

Lemma iter_add_mod k d y :
  0 <= y < score_modulus ->
  Nat.iter k (fun z => (z + d) mod score_modulus) y = (y + Z.of_nat k * d) mod score_modulus.
Proof.
  intros Hy. induction k as [|k IH].
  - simpl. rewrite Z.add_0_r. symmetry. by apply Z.mod_small.
  - rewrite Nat.iter_succ, IH, Zplus_mod_idemp_l, Nat2Z.inj_succ. f_equal. lia.
Qed.

Lemma lookup_node_perm g g' x :
  g' ≡ₚ g -> NoDup (addrs g) -> lookup_node g' x = lookup_node g x.
Proof.
  intros Hp Hnd. assert (Hnd' : NoDup (addrs g')) by (unfold addrs in *; by rewrite Hp).
  destruct (lookup_node g x) as [n|] eqn:E.
  - apply lookup_node_Some in E as [Hn <-]. apply lookup_node_complete; [done|]. by rewrite Hp.
  - apply lookup_node_None in E. destruct (lookup_node g' x) as [n|] eqn:E'; [|done].
    apply lookup_node_Some in E' as [Hn <-]. exfalso. apply E.
    apply list_elem_of_fmap_2. by rewrite <- Hp.
Qed.

Lemma score_of_perm g g' x :
  g' ≡ₚ g -> NoDup (addrs g) -> score_of g' x = score_of g x.
Proof. intros Hp Hnd. unfold score_of. by rewrite (lookup_node_perm g g' x). Qed.

Lemma score_of_in_range g x : scores_in_range g -> 0 <= score_of g x < score_modulus.
Proof.
  intros Hr. unfold score_of. destruct (lookup_node g x) as [n|] eqn:E.
  - apply Hr. by apply lookup_node_Some in E as [? _].
  - unfold score_modulus. lia.
Qed.

Lemma sum_list_with_ext {A} (f1 f2 : A -> nat) l :
  (forall u, u ∈ l -> f1 u = f2 u) -> sum_list_with f1 l = sum_list_with f2 l.
Proof.
  induction l as [|u l IH]; intros H; simpl; [done|].
  rewrite (H u) by (apply elem_of_cons; by left). rewrite IH; [done|].
  intros v Hv. apply H, elem_of_cons. by right.
Qed.

Lemma count_paths_reaches fuel g a x : count_paths fuel g a x <> 0%nat -> reaches g a x.
Proof.
  revert a. induction fuel as [|k IH]; intros a H; simpl in H; [done|].
  destruct (decide (a = x)) as [->|Hne]; [constructor|]. simpl in H.
  assert (exists u, u ∈ targets_of g a /\ count_paths k g u x <> 0%nat) as (u & Hu & Hc).
  { clear IH Hne. induction (targets_of g a) as [|v ts IHts]; simpl in H; [done|].
    destruct (decide (count_paths k g v x = 0%nat)) as [E|E].
    - rewrite E in H. destruct (IHts H) as (u & ? & ?).
      exists u. split; [apply elem_of_cons; by right|done].
    - exists v. split; [apply elem_of_cons; by left|done]. }
  eapply reaches_step; [by apply targets_of_edge|]. by apply IH.
Qed.

Lemma count_paths_self fuel g a : dag_ok g -> count_paths (S fuel) g a a = 1%nat.
Proof.
  intros (_ & _ & Hac & _). simpl. rewrite decide_True by done.
  rewrite (sum_list_with_ext _ (fun _ => 0%nat)).
  - induction (targets_of g a); simpl; auto.
  - intros u Hu. destruct (decide (count_paths fuel g u a = 0%nat)) as [|E]; [done|].
    exfalso. apply count_paths_reaches in E. eapply Hac; [by apply targets_of_edge|exact E].
Qed.

Lemma count_paths_add_edge fuel g s t a x :
  ~ reaches g a s ->
  count_paths fuel (set_targets g s (targets_of g s ++ [t])) a x = count_paths fuel g a x.
Proof.
  revert a. induction fuel as [|k IH]; intros a Hna; simpl; [done|].
  rewrite targets_of_set_targets_ne by (intros ->; apply Hna; constructor).
  f_equal. apply sum_list_with_ext. intros u Hu. apply IH.
  intros Hus. apply Hna. eapply reaches_step; [by apply targets_of_edge|exact Hus].
Qed.

(** After a successful [link s t], the score of every node [x] has grown by
    the score of [s] once per path from [t] to [x]. *)
Lemma link_score_of g s t x :
  dag_ok g -> s ∈ addrs g -> t ∈ addrs g -> ~ reaches g t s -> x ∈ addrs g ->
  score_of (link g s t).1 x =
    (score_of g x + Z.of_nat (count_paths (visit_fuel g) g t x) * score_of g s)
      mod score_modulus.
Proof.
  intros Hok Hs Ht Hnr Hx. unfold link.
  pose proof (link_check_thrown g s t Hok Hs Ht) as Hiff.
  destruct (visit _ g (scoped_flag [] s) t) as [l0 thrown] eqn:E0. simpl in Hiff.
  destruct thrown; [exfalso; by apply Hnr, Hiff|].
  pose proof (dag_ok_add_edge g s t Hok Ht Hnr) as Hok1.
  assert (Ht1 : t ∈ addrs (set_targets g s (targets_of g s ++ [t])))
    by by rewrite addrs_set_targets.
  assert (Hx1 : x ∈ addrs (set_targets g s (targets_of g s ++ [t])))
    by by rewrite addrs_set_targets.
  pose proof (visit_unflagged_not_thrown _ t Hok1 Ht1) as Hv.
  pose proof (visit_count _ _ [] t x Hv) as Hc.
  assert (Hfuel : visit_fuel (set_targets g s (targets_of g s ++ [t])) = visit_fuel g)
    by (unfold visit_fuel, set_targets; by rewrite length_fmap).
  destruct (visit _ _ [] t) as [l thrown2]. cbn [fst snd] in Hv, Hc. subst thrown2.
  rewrite Hfuel, count_paths_add_edge in Hc by done.
  cbn [fst snd]. unfold sort_by_score.
  erewrite score_of_perm; [|apply merge_sort_Permutation|].
  2:{ rewrite addrs_apply_scores, addrs_set_targets. by destruct Hok. }
  rewrite score_of_apply_scores by done.
  rewrite iter_add_mod by (apply score_of_in_range; by destruct Hok1 as (_ & _ & _ & ?)).
  by rewrite Hc, !score_of_set_targets.
Qed.

(** ** C3: score propagation in [link] *)

(** C3 (amended): after a successful [link source target] on a DAG,
    [target]'s score is its old score plus
    [source]'s score (modulo 2^64); every node [x] gains [source]'s score
    once per path from [target] to [x], so a node reached along several
    paths gains it several times; a node not reachable from [target]
    keeps its score. *)
Theorem link_scores_paths g s t :
  dag_ok g -> s ∈ addrs g -> t ∈ addrs g -> (link g s t).2 = Ret tt ->
  score_of (link g s t).1 t = (score_of g t + score_of g s) mod score_modulus /\
  (forall x, x ∈ addrs g ->
     score_of (link g s t).1 x =
       (score_of g x + Z.of_nat (count_paths (visit_fuel g) g t x) * score_of g s)
         mod score_modulus) /\
  (forall x, x ∈ addrs g -> ~ reaches g t x -> score_of (link g s t).1 x = score_of g x).
Proof.
  intros Hok Hs Ht Hret.
  assert (Hnr : ~ reaches g t s).
  { destruct (link_outcome g s t Hok Hs Ht) as [[_ Hl]|[? _]]; [|done].
    rewrite Hl in Hret. discriminate. }
  split_and!.
  - rewrite link_score_of by done. unfold visit_fuel.
    by rewrite count_paths_self, Z.mul_1_l by done.
  - intros x Hx. by apply link_score_of.
  - intros x Hx Htx. rewrite link_score_of by done.
    destruct (decide (count_paths (visit_fuel g) g t x = 0%nat)) as [->|E].
    + rewrite Z.mul_0_l, Z.add_0_r. apply Z.mod_small, score_of_in_range. by destruct Hok as (_ & _ & _ & ?).
    + by apply count_paths_reaches in E.
Qed.

(** ** C1 and C2: cycle detection in [link] *)

(** C1: for a DAG (distinct addresses, no dangling target, no cycle,
    scores in range) and two of its nodes
    [source] and [target], [link source target] raises [CircularReference]
    if and only if adding the edge [source -> target] would make some node
    reachable from itself by a non-empty path, which is the case exactly
    when [source] is reachable from [target] (possibly equal to it); and
    when it raises, the DAG is returned exactly as it was: the same list
    of nodes, with the same values, scores, targets and order. *)
Theorem link_circular_iff g s t :
  dag_ok g -> s ∈ addrs g -> t ∈ addrs g ->
  ((link g s t).2 = Throw CircularReference <->
     exists a, reaches_plus (set_targets g s (targets_of g s ++ [t])) a a) /\
  ((link g s t).2 = Throw CircularReference <-> reaches g t s) /\
  ((link g s t).2 = Throw CircularReference -> (link g s t).1 = g).
Proof.
  intros Hok Hs Ht.
  rewrite (add_edge_cycle_iff g s t Hok Hs Ht).
  destruct (link_outcome g s t Hok Hs Ht) as [[Hts ->]|[Hnts Hret]]; simpl.
  - split_and!; done.
  - rewrite Hret. split_and!; try split; intros H; try discriminate; contradiction.
Qed.

(** C2: in every DAG reachable from the empty DAG by [insert], [link],
    [unlink] and [erase] calls with defined behaviour, no node is reachable from itself by a non-empty
    path; and a [link] whose edge would create such a path fails with
    [CircularReference] and returns the DAG unchanged. *)
Theorem reachable_acyclic g :
  reachable g ->
  (forall a, ~ reaches_plus g a a) /\
  (forall s t, s ∈ addrs g -> t ∈ addrs g ->
     (exists a, reaches_plus (set_targets g s (targets_of g s ++ [t])) a a) ->
     link g s t = (g, Throw CircularReference)).
Proof.
  intros Hr. pose proof (reachable_dag_ok g Hr) as Hok. split.
  - intros a (c & Hac & Hca). destruct Hok as (_ & _ & Hacy & _). by eapply Hacy.
  - intros s t Hs Ht Hcyc. apply (add_edge_cycle_iff g s t Hok Hs Ht) in Hcyc.
    destruct (link_outcome g s t Hok Hs Ht) as [[_ ->]|[Hn _]]; [done|contradiction].
Qed.

(** [linked(x, x)]: [x] is flagged, so the visit throws at once. *)
Lemma linked_self g x : linked g x x = true.
Proof. unfold linked, visit_fuel, scoped_flag. simpl. rewrite decide_True; [done|]. apply elem_of_cons. by left. Qed.

End DagProofs.

(** ** Instances of the theorems *)

Lemma link_circular_iff_witness :
  dag_ok dag_chain /\ 2%nat ∈ addrs dag_chain /\ 1%nat ∈ addrs dag_chain /\
  ((link dag_chain 2%nat 1%nat).2 = Throw CircularReference <-> reaches dag_chain 1%nat 2%nat).
Proof.
  assert (Hr : dag_ok dag_chain) by (apply reachable_dag_ok; exists ops_chain; vm_compute; reflexivity).
  assert (H2 : 2%nat ∈ addrs dag_chain) by (apply (bool_decide_unpack _); vm_compute; reflexivity).
  assert (H1 : 1%nat ∈ addrs dag_chain) by (apply (bool_decide_unpack _); vm_compute; reflexivity).
  split_and!; [exact Hr|exact H2|exact H1|].
  exact (proj1 (proj2 (link_circular_iff dag_chain 2%nat 1%nat Hr H2 H1))).
Defined.

Lemma link_scores_paths_witness :
  dag_ok dag_chain /\ 1%nat ∈ addrs dag_chain /\ 2%nat ∈ addrs dag_chain /\
  (link dag_chain 1%nat 2%nat).2 = Ret tt /\
  score_of (link dag_chain 1%nat 2%nat).1 2%nat =
    (score_of dag_chain 2%nat + score_of dag_chain 1%nat) mod score_modulus.
Proof.
  assert (Hr : dag_ok dag_chain) by (apply reachable_dag_ok; exists ops_chain; vm_compute; reflexivity).
  assert (H1 : 1%nat ∈ addrs dag_chain) by (apply (bool_decide_unpack _); vm_compute; reflexivity).
  assert (H2 : 2%nat ∈ addrs dag_chain) by (apply (bool_decide_unpack _); vm_compute; reflexivity).
  assert (Hl : (link dag_chain 1%nat 2%nat).2 = Ret tt) by (vm_compute; reflexivity).
  split_and!; [exact Hr|exact H1|exact H2|exact Hl|].
  exact (proj1 (link_scores_paths dag_chain 1%nat 2%nat Hr H1 H2 Hl)).
Defined.

(** In the diamond, linking the node of 0 to the node of 1 adds the score
    of 0 twice to the node of 3, reached from the node of 1 along
    [1 -> 3] and along [1 -> 2 -> 3]. *)
Lemma link_adds_once_counterexample :
  ~ (forall g s t, reachable g -> s ∈ addrs g -> t ∈ addrs g -> link_adds_once (V:=nat) g s t).
Proof.
  intros H.
  assert (Hr : reachable dag_diamond) by (exists ops_diamond; vm_compute; reflexivity).
  assert (H1 : 1%nat ∈ addrs dag_diamond) by (apply (bool_decide_unpack _); vm_compute; reflexivity).
  assert (H2 : 2%nat ∈ addrs dag_diamond) by (apply (bool_decide_unpack _); vm_compute; reflexivity).
  assert (Hl : (link dag_diamond 1%nat 2%nat).2 = Ret tt) by (vm_compute; reflexivity).
  assert (H24 : reaches dag_diamond 2%nat 4%nat).
  { eapply reaches_step; [|apply reaches_refl]. apply targets_of_edge.
    apply (bool_decide_unpack _); vm_compute; reflexivity. }
  pose proof (H dag_diamond 1%nat 2%nat Hr H1 H2 Hl 4%nat H24) as Hx.
  vm_compute in Hx. discriminate.
Qed.

Lemma reachable_acyclic_witness :
  reachable dag_chain /\ (forall a, ~ reaches_plus dag_chain a a).
Proof.
  assert (Hr : reachable dag_chain) by (exists ops_chain; vm_compute; reflexivity).
  split; [exact Hr|]. exact (proj1 (reachable_acyclic dag_chain Hr)).
Defined.

(** ** C4: iteration order after [unlink] *)

(** C4: the score order of the iteration does not survive [unlink]. With
    values 0, 1, 2 at increasing addresses, after linking the nodes of 2
    and of 1 to the node of 0 the scores read [1; 1; 3] front to back;
    unlinking the node of 1 from it re-sorts [nodes_] by node address and
    the scores read [2; 1; 1]. *)
Theorem unlink_breaks_score_order :
  (exists g, run_ops [] (take 5 ops_relink) = Some g /\ scores g = [1; 1; 3]) /\
  (exists g, run_ops [] ops_relink = Some g /\ scores g = [2; 1; 1] /\ ~ Sorted Z.le (scores g)).
Proof.
  split.
  - eexists. split; [vm_compute; reflexivity|]. vm_compute. reflexivity.
  - exists (default [] (run_ops [] ops_relink)).
    assert (E : scores (default [] (run_ops [] ops_relink)) = [2; 1; 1])
      by (vm_compute; reflexivity).
    split_and!; [vm_compute; reflexivity|exact E|]. rewrite E.
    intros Hs. apply Sorted_inv in Hs as [_ Hh]. inversion Hh. lia.
Qed.

Lemma score_order_counterexample :
  ~ (forall (ops : list (@dag_op nat)) (g : @dag nat),
       Forall (fun op => match op with OpErase _ => False | _ => True end) ops ->
       run_ops [] ops = Some g -> Sorted Z.le (scores g)).
Proof.
  intros H.
  assert (Hs : Sorted Z.le (scores (default [] (run_ops [] ops_relink)))).
  { apply (H ops_relink); [vm_compute; repeat constructor|vm_compute; reflexivity]. }
  assert (E : scores (default [] (run_ops [] ops_relink)) = [2; 1; 1])
    by (vm_compute; reflexivity).
  rewrite E in Hs. apply Sorted_inv in Hs as [_ Hh]. inversion Hh. lia.
Qed.

(** ** C5: [removePrerequisite] and [removeDependant] of an unlinked value *)

(** C5: with 0 selected and 1 present but not linked to it (no edge in
    either DAG), [removePrerequisite(1)] and [removeDependant(1)] return
    normally but change both DAGs: [unlink] lowers the scores reachable
    from its target by the source's score whether or not the edge was
    there, and re-sorts the nodes. *)
Theorem remove_unlinked_changes_dags :
  storage_ tr_pair = [0; 1]%nat /\ selected_ tr_pair = Some 0%nat /\
  edge_count (dependants_ tr_pair) = 0%nat /\ edge_count (prerequisites_ tr_pair) = 0%nat /\
  (removePrerequisite tr_pair 1%nat).2 = Ret tt /\
  dependants_ (removePrerequisite tr_pair 1%nat).1 <> dependants_ tr_pair /\
  prerequisites_ (removePrerequisite tr_pair 1%nat).1 <> prerequisites_ tr_pair /\
  (removeDependant tr_pair 1%nat).2 = Ret tt /\
  dependants_ (removeDependant tr_pair 1%nat).1 <> dependants_ tr_pair /\
  prerequisites_ (removeDependant tr_pair 1%nat).1 <> prerequisites_ tr_pair.
Proof.
  split_and!; vm_compute; try reflexivity; intros H; discriminate H.
Qed.

(** ** C6 and C9: the two DAGs after [erase] *)

(** C6: the dependants DAG and the prerequisites DAG mirror each other
    before, but not after, an [erase]. With 1 depending on 0, 3 on 1 and
    0 on 2, [erase(0)] removes the node of 1 from the dependants DAG and
    the node of 2 from the prerequisites DAG, and keeps the nodes of 0:
    [DAG::erase] reads position [where] again after each [unlink], which
    re-sorts [nodes_] by node address. Then 3 is linked to 1 in the
    prerequisites DAG but 1 is not linked to 3 in the dependants DAG, and
    [depends(3, 1)] fails its assertion. *)
Theorem erase_breaks_mirror :
  (forall a b, a ∈ storage_ tr_deps -> b ∈ storage_ tr_deps ->
     linked_val (dependants_ tr_deps) a b = linked_val (prerequisites_ tr_deps) b a) /\
  (t_erase tr_deps 0%nat).2 = Ret 1%nat /\
  storage_ tr_deps_erased = [1; 2; 3]%nat /\
  linked_val (dependants_ tr_deps_erased) 1%nat 3%nat = false /\
  linked_val (prerequisites_ tr_deps_erased) 3%nat 1%nat = true /\
  depends tr_deps_erased 3%nat 1%nat = Throw AssertionFailed.
Proof.
  split_and!; [|vm_compute; reflexivity..].
  assert (Hst : storage_ tr_deps = [0; 1; 2; 3]%nat) by (vm_compute; reflexivity).
  rewrite Hst. intros a b Ha%list_elem_of_In Hb%list_elem_of_In. simpl in Ha, Hb.
  intuition subst; vm_compute; reflexivity.
Qed.

(** C9: [linked(x, x)] holds on every DAG, for every [x]; yet [depends(v, v)]
    can fail for a value [v] in the tracker: after the [erase(0)] above, 1
    is present but its node is gone from the dependants DAG, so
    [depends(1, 1)] fails its assertion, and without assertions it returns
    [dependants_.linked(1, 1)], false. *)
Theorem depends_self_after_erase :
  (forall (g : @dag nat) x, linked g x x = true) /\
  1%nat ∈ storage_ tr_deps_erased /\
  depends tr_deps_erased 1%nat 1%nat = Throw AssertionFailed /\
  linked_val (dependants_ tr_deps_erased) 1%nat 1%nat = false.
Proof.
  split_and!.
  - intros g x. apply linked_self.
  - apply (bool_decide_unpack _). vm_compute. reflexivity.
  - vm_compute. reflexivity.
  - vm_compute. reflexivity.
Qed.

(** ** C7: inserting ten values *)

(** C7 (amended): inserting 0 to 9, in this order, into an empty DAG
    reports an insertion for each value, whatever addresses the nodes get;
    iteration then yields the ten values, each with score 1, in the
    reverse of the insertion order, 9 down to 0: [DAG::insert] puts every
    new node at the front of [nodes_] and does not sort. *)
Theorem insert_ten_values (addrs10 : list addr) :
  length addrs10 = 10%nat ->
  (insert_seq (V:=nat) [] (zip (seq 0 10) addrs10)).2 = replicate 10 true /\
  values (insert_seq (V:=nat) [] (zip (seq 0 10) addrs10)).1 = rev (seq 0 10) /\
  scores (insert_seq (V:=nat) [] (zip (seq 0 10) addrs10)).1 = replicate 10 1.
Proof.
  intros Hl.
  do 10 (destruct addrs10 as [|? addrs10]; [discriminate|]).
  destruct addrs10; [|discriminate].
  vm_compute. split_and!; reflexivity.
Qed.

Lemma insert_ten_values_witness :
  length (seq 1 10) = 10%nat /\
  values (insert_seq (V:=nat) [] (zip (seq 0 10) (seq 1 10))).1 = rev (seq 0 10).
Proof.
  assert (Hl : length (seq 1 10) = 10%nat) by reflexivity.
  split; [exact Hl|]. exact (proj1 (proj2 (insert_ten_values (seq 1 10) Hl))).
Defined.

Lemma insert_ten_order_counterexample :
  values (insert_seq (V:=nat) [] (zip (seq 0 10) (seq 1 10))).1 <> seq 0 10.
Proof. vm_compute. intros H. discriminate H. Qed.

(** ** C8: [getDependants] on a chain *)

(** C8: after [select(0).addDependant(1); select(1).addDependant(2)] and
    [select(0)] again, [getDependants(true)] returns the values 1 and 2,
    and [getDependants(false)] returns 1 alone. *)
Theorem getDependants_chain :
  selected_ tr_chain = Some 0%nat /\
  getDependants tr_chain true = Ret [1; 2]%nat /\
  getDependants tr_chain false = Ret [1]%nat.
Proof. split_and!; vm_compute; reflexivity. Qed.

(** ** C10: selecting [end()] *)

(** C10: [select(end())] clears the selection before it throws
    [std::invalid_argument("Cannot select end")], so it leaves the tracker
    with no selection, whatever was selected before; the rest of the
    tracker is unchanged. *)
Theorem select_end_clears {V : Type} (d : @tracker V) :
  select_it d None = (clearSelection d, Throw (InvalidArgument "Cannot select end")) /\
  selected_ (select_it d None).1 = None /\
  storage_ (select_it d None).1 = storage_ d /\
  dependants_ (select_it d None).1 = dependants_ d /\
  prerequisites_ (select_it d None).1 = prerequisites_ d.
Proof. split_and!; reflexivity. Qed.

(** ** Further properties of the DAG *)

Section ExtraDagProofs.
Context {V : Type} `{EqDecision V}.
Implicit Types (g : @dag V) (n : @node V).

(** *** Finding a value *)

Lemma existsb_find {A} (f : A -> bool) l :
  existsb f l = match find f l with Some _ => true | None => false end.
Proof. induction l as [|x l IH]; simpl; [done|]. by destruct (f x). Qed.

Lemma find_value_cons n g v :
  find_value (n :: g) v = if bool_decide (value_ n = v) then Some (node_addr n) else find_value g v.
Proof. unfold find_value. simpl. by case_bool_decide. Qed.

Lemma find_value_None g v : find_value g v = None <-> v ∉ values g.
Proof.
  induction g as [|n g IH]; simpl.
  - split; [intros _; apply not_elem_of_nil|done].
  - rewrite find_value_cons. unfold values; simpl. rewrite not_elem_of_cons.
    case_bool_decide as Hv; [split; [done|]; intros [? _]; congruence|].
    rewrite IH. unfold values. split; [intros H; split; [congruence|done]|by intros [_ ?]].
Qed.

Lemma find_value_Some g v a :
  find_value g v = Some a -> exists n, n ∈ g /\ value_ n = v /\ node_addr n = a.
Proof.
  induction g as [|n g IH]; simpl; [done|]. rewrite find_value_cons.
  case_bool_decide as Hv.
  - intros [= <-]. exists n. split; [apply elem_of_cons; by left|done].
  - intros H. destruct (IH H) as (m & Hm & ? & ?). exists m. split; [apply elem_of_cons; by right|done].
Qed.

Lemma find_value_addrs g v a : find_value g v = Some a -> a ∈ addrs g.
Proof. intros (n & Hn & _ & <-)%find_value_Some. by apply list_elem_of_fmap_2. Qed.

(** With unique values, [find] locates the one node holding the value. *)
Lemma find_value_unique g v n :
  NoDup (values g) -> n ∈ g -> value_ n = v -> find_value g v = Some (node_addr n).
Proof.
  induction g as [|m g IH]; intros Hnd Hn Hv; [by apply not_elem_of_nil in Hn|].
  unfold values in Hnd. simpl in Hnd. apply NoDup_cons in Hnd as [Hm Hnd].
  rewrite find_value_cons. apply elem_of_cons in Hn as [->|Hn].
  - by rewrite bool_decide_true.
  - rewrite bool_decide_false; [by apply IH|].
    intros Heq. apply Hm. rewrite Heq, <- Hv. by apply list_elem_of_fmap_2.
Qed.

Lemma find_value_perm g g' v :
  (g' ≡ₚ g) -> NoDup (values g) -> find_value g' v = find_value g v.
Proof.
  intros Hp Hnd. assert (Hnd' : NoDup (values g')) by (unfold values in *; by rewrite Hp).
  destruct (find_value g v) as [a|] eqn:E.
  - apply find_value_Some in E as (n & Hn & Hv & <-). apply find_value_unique; [done| |done].
    by rewrite Hp.
  - apply find_value_None. apply find_value_None in E. unfold values in *. by rewrite Hp.
Qed.

Lemma insert_cases g v a :
  ((~ exists n, n ∈ g /\ value_ n = v /\ score_ n = 1 /\ targets_ n = []) /\
     insert g v a = (mkNode a v 1 [] :: g, true)) \/
  ((exists n, n ∈ g /\ value_ n = v /\ score_ n = 1 /\ targets_ n = []) /\
     insert g v a = (g, false)).
Proof.
  unfold insert. destruct (existsb _ g) eqn:E.
  - right. split; [|done]. apply existsb_exists in E as (n & Hn & Hv).
    unfold node_eq_fresh in Hv. apply bool_decide_eq_true in Hv.
    exists n. split; [by apply list_elem_of_In|done].
  - left. split; [|done]. intros (n & Hn & Hv).
    assert (existsb (fun n => node_eq_fresh n v) g = true) as Ht; [|congruence].
    apply existsb_exists. exists n. split; [by apply list_elem_of_In|].
    unfold node_eq_fresh. by apply bool_decide_eq_true.
Qed.

(** A value held by no node is inserted. *)
Lemma insert_fresh g v a :
  v ∉ values g -> insert g v a = (mkNode a v 1 [] :: g, true).
Proof.
  intros Hv. destruct (insert_cases g v a) as [[_ ->]|[(n & Hn & Hnv & _) _]]; [done|].
  exfalso. apply Hv. rewrite <- Hnv. by apply list_elem_of_fmap_2.
Qed.

(** *** Values are kept by the score and target updates *)

Lemma values_fmap (h : @node V -> @node V) g :
  (forall n, value_ (h n) = value_ n) -> values (h <$> g) = values g.
Proof. intros Hh. unfold values. rewrite <- list_fmap_compose. apply list_fmap_ext. intros; simpl; auto. Qed.

Lemma values_apply_scores (f : Z -> Z) l g : values (apply_scores f l g) = values g.
Proof.
  unfold apply_scores. revert g. induction l as [|c l IH]; intros g; simpl; [done|].
  rewrite IH. unfold update_score. apply values_fmap. intros n. by destruct (decide _).
Qed.

Lemma values_set_targets g s ts : values (set_targets g s ts) = values g.
Proof. apply values_fmap. intros n. by destruct (decide _). Qed.

Lemma values_link g s t : values (link g s t).1 ≡ₚ values g.
Proof.
  unfold link. destruct (visit _ g _ t) as [l0 []]; [done|].
  destruct (visit _ _ [] t) as [l []]; simpl.
  - by rewrite values_apply_scores, values_set_targets.
  - unfold sort_by_score, values. rewrite merge_sort_Permutation.
    change (values (apply_scores (fun x => (x + score_of (set_targets g s (targets_of g s ++ [t])) s)
      mod score_modulus) l (set_targets g s (targets_of g s ++ [t]))) ≡ₚ values g).
    by rewrite values_apply_scores, values_set_targets.
Qed.

Lemma values_unlink g s t : values (unlink g s t).1 ≡ₚ values g.
Proof.
  unfold unlink.
  assert (exists g1 rv, (match remove_first t (targets_of g s) with
                         | Some ts' => (set_targets g s ts', true)
                         | None => (g, false) end) = (g1, rv) /\ values g1 = values g)
    as (g1 & rv & -> & Hv1).
  { destruct (remove_first t (targets_of g s)); eexists _, _; split; try done.
    apply values_set_targets. }
  destruct (visit _ g1 [] t) as [l []]; simpl.
  - by rewrite values_apply_scores, Hv1.
  - unfold sort_by_addr, values. rewrite merge_sort_Permutation.
    change (values (apply_scores (fun x => (x - score_of g1 s) mod score_modulus) l g1) ≡ₚ values g).
    by rewrite values_apply_scores, Hv1.
Qed.

(** *** Targets *)

Lemma targets_of_fmap (h : @node V -> @node V) g x :
  (forall n, node_addr (h n) = node_addr n) -> (forall n, targets_ (h n) = targets_ n) ->
  targets_of (h <$> g) x = targets_of g x.
Proof.
  intros Ha Ht. unfold targets_of. rewrite lookup_node_fmap by done.
  destruct (lookup_node g x); simpl; auto.
Qed.

Lemma targets_of_apply_scores (f : Z -> Z) l g x :
  targets_of (apply_scores f l g) x = targets_of g x.
Proof.
  unfold apply_scores. revert g. induction l as [|c l IH]; intros g; simpl; [done|].
  rewrite IH. unfold update_score. apply targets_of_fmap; intros n; by destruct (decide _).
Qed.

Lemma targets_of_perm g g' x :
  (g' ≡ₚ g) -> NoDup (addrs g) -> targets_of g' x = targets_of g x.
Proof. intros Hp Hnd. unfold targets_of. by rewrite (lookup_node_perm g g' x). Qed.

Lemma targets_of_set_targets_eq g s ts :
  s ∈ addrs g -> targets_of (set_targets g s ts) s = ts.
Proof.
  intros Hs. unfold targets_of, set_targets.
  rewrite lookup_node_fmap by (intros n; by destruct (decide _)).
  destruct (lookup_node g s) as [n|] eqn:E; simpl.
  - apply lookup_node_Some in E as [_ Hn]. by rewrite decide_True.
  - by apply lookup_node_None in E.
Qed.

Lemma targets_of_not_addr g s : s ∉ addrs g -> targets_of g s = [].
Proof.
  intros Hs. unfold targets_of. destruct (lookup_node g s) as [n|] eqn:E; [|done].
  apply lookup_node_Some in E as [Hn <-]. exfalso. apply Hs. by apply list_elem_of_fmap_2.
Qed.

Lemma remove_first_None t ts : remove_first t ts = None <-> t ∉ ts.
Proof.
  induction ts as [|x ts IH]; simpl.
  - split; [intros _; apply not_elem_of_nil|done].
  - rewrite not_elem_of_cons. destruct (decide (x = t)) as [->|Hne].
    + split; [done|]. by intros [? _].
    + destruct (remove_first t ts) eqn:E; simpl.
      * split; [done|]. intros [_ H]. apply IH in H. congruence.
      * split; [intros _; split; [congruence|by apply IH]|done].
Qed.

Lemma remove_first_perm t ts ts' : remove_first t ts = Some ts' -> ts ≡ₚ t :: ts'.
Proof.
  revert ts'. induction ts as [|x ts IH]; intros ts' H; simpl in H; [done|].
  destruct (decide (x = t)) as [->|Hne]; [by injection H as <-|].
  destruct (remove_first t ts) as [r|] eqn:E; simpl in H; [|done]. injection H as <-.
  rewrite (IH r eq_refl). apply perm_swap.
Qed.

(** *** The outcome of [unlink] *)

Lemma unlink_spec g s t :
  dag_ok g -> t ∈ addrs g ->
  (unlink g s t).2 = Ret (bool_decide (t ∈ targets_of g s)) /\
  addrs (unlink g s t).1 ≡ₚ addrs g /\
  (forall x, targets_of (unlink g s t).1 x =
     if decide (x = s) then default (targets_of g s) (remove_first t (targets_of g s))
     else targets_of g x).
Proof.
  intros Hok Ht. unfold unlink.
  assert (exists g1 rv, (match remove_first t (targets_of g s) with
                         | Some ts' => (set_targets g s ts', true)
                         | None => (g, false) end) = (g1, rv) /\ dag_ok g1 /\
          addrs g1 = addrs g /\ rv = bool_decide (t ∈ targets_of g s) /\
          forall x, targets_of g1 x =
            if decide (x = s) then default (targets_of g s) (remove_first t (targets_of g s))
            else targets_of g x)
    as (g1 & rv & -> & Hok1 & Ha1 & Hrv & Ht1).
  { destruct (remove_first t (targets_of g s)) as [ts'|] eqn:E; eexists _, _; (split; [done|]).
    - pose proof (remove_first_perm _ _ _ E) as Hp.
      assert (Hs : s ∈ addrs g).
      { destruct (decide (s ∈ addrs g)) as [|Hn]; [done|].
        rewrite targets_of_not_addr in Hp by done. by apply Permutation_nil_cons in Hp. }
      split_and!.
      + apply dag_ok_set_targets_sub; [done|]. by eapply remove_first_sub.
      + apply addrs_set_targets.
      + rewrite bool_decide_true; [done|]. rewrite Hp. apply elem_of_cons. by left.
      + intros x. destruct (decide (x = s)) as [->|Hne]; simpl.
        * by apply targets_of_set_targets_eq.
        * by apply targets_of_set_targets_ne.
    - apply remove_first_None in E. split_and!; [done|done| |].
      + by rewrite bool_decide_false.
      + intros x. destruct (decide (x = s)) as [->|]; done. }
  assert (Ht' : t ∈ addrs g1) by by rewrite Ha1.
  pose proof (visit_unflagged_not_thrown g1 t Hok1 Ht') as Hv.
  destruct (visit _ g1 [] t) as [l thrown]. simpl in Hv. subst thrown.
  assert (Hnd : NoDup (addrs (apply_scores (fun x => (x - score_of g1 s) mod score_modulus) l g1))).
  { rewrite addrs_apply_scores. by destruct Hok1. }
  simpl. split_and!.
  - by rewrite Hrv.
  - unfold sort_by_addr, addrs. rewrite merge_sort_Permutation.
    change (addrs (apply_scores (fun x => (x - score_of g1 s) mod score_modulus) l g1) ≡ₚ addrs g).
    by rewrite addrs_apply_scores, Ha1.
  - intros x. unfold sort_by_addr.
    erewrite targets_of_perm; [|apply merge_sort_Permutation|exact Hnd].
    by rewrite targets_of_apply_scores.
Qed.

(** *** [linked] and reachability *)

Lemma linked_reaches g s t :
  dag_ok g -> s ∈ addrs g -> t ∈ addrs g -> linked g s t = true <-> reaches g s t.
Proof.
  intros Hok Hs Ht. unfold linked.
  change (snd ?p) with p.2. rewrite visit_thrown_iff; try done.
  - split.
    + by intros (p & [->|[]%elem_of_nil]%elem_of_cons & Hr).
    + intros Hr. exists t. split; [apply elem_of_cons; by left|done].
  - apply NoDup_singleton.
  - by intros x [->|[]%elem_of_nil]%elem_of_cons.
  - unfold visit_fuel; simpl; lia.
Qed.

(** *** [link] followed by [unlink] *)

Lemma visit_targets_ext (f f' : addr -> list addr * bool) ts :
  (forall u, u ∈ ts -> f' u = f u) -> visit_targets f' ts = visit_targets f ts.
Proof.
  induction ts as [|u ts IH]; intros H; simpl; [done|].
  rewrite H by (apply elem_of_cons; by left).
  rewrite IH; [done|]. intros v Hv. apply H, elem_of_cons. by right.
Qed.

(** [visit] only reads the targets of the nodes it reaches. *)
Lemma visit_ext g g' fuel fl a :
  (forall y, reaches g a y -> targets_of g' y = targets_of g y) ->
  visit fuel g' fl a = visit fuel g fl a.
Proof.
  revert fl a. induction fuel as [|k IH]; intros fl a H; simpl; [done|].
  destruct (decide (a ∈ fl)); [done|].
  rewrite (H a) by constructor.
  rewrite (visit_targets_ext (visit k g (scoped_flag fl a))); [done|].
  intros u Hu. apply IH. intros y Hy. apply H.
  eapply reaches_step; [by apply targets_of_edge|exact Hy].
Qed.

Lemma length_addrs g : length (addrs g) = length g.
Proof. apply length_fmap. Qed.

Lemma iter_sub_mod k d y :
  0 <= y < score_modulus ->
  Nat.iter k (fun z => (z - d) mod score_modulus) y = (y - Z.of_nat k * d) mod score_modulus.
Proof.
  intros Hy. induction k as [|k IH].
  - simpl. rewrite Z.sub_0_r. symmetry. by apply Z.mod_small.
  - rewrite Nat.iter_succ, IH, Zminus_mod_idemp_l, Nat2Z.inj_succ. f_equal. lia.
Qed.

(** A successful [link] adds [t] to the targets of [s] and applies the
    score increment along the visit of the extended DAG. *)
Lemma link_spec g s t :
  dag_ok g -> s ∈ addrs g -> t ∈ addrs g -> ~ reaches g t s ->
  exists l,
    visit (visit_fuel (set_targets g s (targets_of g s ++ [t])))
      (set_targets g s (targets_of g s ++ [t])) [] t = (l, false) /\
    link g s t = (sort_by_score (apply_scores (fun x => (x + score_of g s) mod score_modulus) l
                   (set_targets g s (targets_of g s ++ [t]))), Ret tt).
Proof.
  intros Hok Hs Ht Hnr. unfold link.
  pose proof (link_check_thrown g s t Hok Hs Ht) as Hiff.
  destruct (visit _ g (scoped_flag [] s) t) as [l0 thrown] eqn:E0. simpl in Hiff.
  destruct thrown; [exfalso; by apply Hnr, Hiff|].
  pose proof (dag_ok_add_edge g s t Hok Ht Hnr) as Hok1.
  assert (Ht1 : t ∈ addrs (set_targets g s (targets_of g s ++ [t])))
    by by rewrite addrs_set_targets.
  pose proof (visit_unflagged_not_thrown _ t Hok1 Ht1) as Hv.
  destruct (visit _ _ [] t) as [l thrown2]. simpl in Hv. subst thrown2.
  exists l. split; [done|]. by rewrite score_of_set_targets.
Qed.

(** X7: on a DAG, a successful [link(s, t)] followed by
    [unlink(s, t)] reports that the edge was found and gives back the same
    nodes with the same scores; the targets of [s] are the same up to
    order, and those of every other node are unchanged. *)
Theorem link_unlink_restores g s t :
  dag_ok g -> s ∈ addrs g -> t ∈ addrs g -> (link g s t).2 = Ret tt ->
  (unlink (link g s t).1 s t).2 = Ret true /\
  addrs (unlink (link g s t).1 s t).1 ≡ₚ addrs g /\
  (forall x, x ∈ addrs g ->
     score_of (unlink (link g s t).1 s t).1 x = score_of g x /\
     targets_of (unlink (link g s t).1 s t).1 x ≡ₚ targets_of g x) /\
  (forall x, x <> s -> targets_of (unlink (link g s t).1 s t).1 x = targets_of g x).
Proof.
  intros Hok Hs Ht Hret.
  assert (Hnr : ~ reaches g t s).
  { destruct (link_outcome g s t Hok Hs Ht) as [[_ Hl]|[? _]]; [|done].
    rewrite Hl in Hret. discriminate. }
  destruct (link_spec g s t Hok Hs Ht Hnr) as (l & Hv & Hl). rewrite Hl. cbn [fst].
  pose proof (dag_ok_add_edge g s t Hok Ht Hnr) as Hok1.
  set (g1 := set_targets g s (targets_of g s ++ [t])) in *.
  set (d := score_of g s) in *.
  set (g2 := apply_scores (fun x => (x + d) mod score_modulus) l g1) in *.
  assert (Ha1 : addrs g1 = addrs g) by apply addrs_set_targets.
  assert (Ha2 : addrs g2 = addrs g) by (unfold g2; by rewrite addrs_apply_scores).
  assert (Hnd : NoDup (addrs g)) by (by destruct Hok).
  assert (Hnd2 : NoDup (addrs g2)) by (by rewrite Ha2).
  assert (Hp2 : sort_by_score g2 ≡ₚ g2) by apply merge_sort_Permutation.
  assert (HaL : addrs (sort_by_score g2) ≡ₚ addrs g).
  { unfold addrs at 1. rewrite Hp2. change (addrs g2 ≡ₚ addrs g). by rewrite Ha2. }
  assert (HtL : forall x, targets_of (sort_by_score g2) x = targets_of g1 x).
  { intros x. rewrite (targets_of_perm g2) by done. unfold g2. apply targets_of_apply_scores. }
  assert (Hreach1 : forall y, reaches g1 t y -> reaches g t y).
  { intros y Hy. apply reaches_add_edge in Hy as [Hy|[Hy _]]; [done|]. contradiction. }
  assert (Hcount : forall x, count_occ Nat.eq_dec l x = count_paths (visit_fuel g1) g1 t x).
  { intros x. pose proof (visit_count g1 (visit_fuel g1) [] t x) as Hc.
    rewrite Hv in Hc. by apply Hc. }
  assert (Hls : count_occ Nat.eq_dec l s = 0%nat).
  { rewrite Hcount. destruct (decide (count_paths (visit_fuel g1) g1 t s = 0%nat)) as [|E]; [done|].
    apply count_paths_reaches, Hreach1 in E. contradiction. }
  assert (HsL : forall x, x ∈ addrs g -> score_of (sort_by_score g2) x =
      Nat.iter (count_occ Nat.eq_dec l x) (fun z => (z + d) mod score_modulus) (score_of g x)).
  { intros x Hx. rewrite (score_of_perm g2) by done. unfold g2.
    rewrite score_of_apply_scores by (by rewrite Ha1). unfold g1. by rewrite score_of_set_targets. }
  unfold unlink.
  assert (HTs : targets_of (sort_by_score g2) s = targets_of g s ++ [t]).
  { rewrite HtL. unfold g1. by apply targets_of_set_targets_eq. }
  rewrite HTs.
  destruct (remove_first t (targets_of g s ++ [t])) as [T'|] eqn:Er.
  2:{ exfalso. apply remove_first_None in Er. apply Er, elem_of_app. right.
      by apply list_elem_of_singleton. }
  cbv beta iota zeta.
  set (g1' := set_targets (sort_by_score g2) s T').
  assert (Hd : score_of g1' s = d).
  { unfold g1'. rewrite score_of_set_targets, HsL by done. by rewrite Hls. }
  assert (Hfuel : visit_fuel g1' = visit_fuel g1).
  { unfold visit_fuel. f_equal. rewrite <- !length_addrs. unfold g1'.
    rewrite addrs_set_targets, Ha1. apply Permutation_length, HaL. }
  assert (Hv' : visit (visit_fuel g1') g1' [] t = (l, false)).
  { rewrite Hfuel, <- Hv. apply visit_ext. intros y Hy.
    assert (y <> s) by (intros ->; by apply Hnr, Hreach1).
    unfold g1'. rewrite targets_of_set_targets_ne by done. apply HtL. }
  rewrite Hd, Hv'. cbv beta iota zeta.
  set (g3 := apply_scores (fun x => (x - d) mod score_modulus) l g1').
  assert (Ha3 : addrs g3 = addrs (sort_by_score g2)).
  { unfold g3, g1'. by rewrite addrs_apply_scores, addrs_set_targets. }
  assert (Hnd3 : NoDup (addrs g3)) by (by rewrite Ha3, HaL).
  assert (Hp3 : sort_by_addr g3 ≡ₚ g3) by apply merge_sort_Permutation.
  assert (Htg : forall x, x <> s -> targets_of (sort_by_addr g3) x = targets_of g x).
  { intros x Hne. rewrite (targets_of_perm g3) by done. unfold g3.
    rewrite targets_of_apply_scores. unfold g1'. rewrite targets_of_set_targets_ne, HtL by done.
    unfold g1. by rewrite targets_of_set_targets_ne. }
  split_and!.
  - done.
  - unfold addrs at 1. rewrite Hp3. change (addrs g3 ≡ₚ addrs g). by rewrite Ha3.
  - intros x Hx. split.
    + rewrite (score_of_perm g3) by done. unfold g3.
      rewrite score_of_apply_scores by (unfold g1'; rewrite addrs_set_targets, HaL; done).
      unfold g1'. rewrite score_of_set_targets, HsL by done.
      assert (Hy : 0 <= score_of g x < score_modulus)
        by (apply score_of_in_range; by destruct Hok as (_ & _ & _ & ?)).
      rewrite iter_add_mod by done. rewrite iter_sub_mod by apply mod_in_range.
      rewrite Zminus_mod_idemp_l, Z.add_simpl_r. by apply Z.mod_small.
    + destruct (decide (x = s)) as [->|Hne]; [|by rewrite Htg].
      rewrite (targets_of_perm g3) by done. unfold g3.
      rewrite targets_of_apply_scores. unfold g1'. rewrite targets_of_set_targets_eq by (by rewrite HaL).
      apply remove_first_perm in Er. apply (Permutation_cons_inv (a:=t)).
      rewrite <- Er. symmetry. apply Permutation_cons_append.
  - exact Htg.
Qed.

(** *** Extra properties of the DAG *)

(** X5: on a DAG, the value overload of [linked(x, y)] returns
    true exactly when both values are in the DAG and the node of [y] can be
    reached from the node of [x] (possibly [x = y]). *)
Theorem linked_val_reaches g x y :
  dag_ok g ->
  linked_val g x y = true <->
  exists a b, find_value g x = Some a /\ find_value g y = Some b /\ reaches g a b.
Proof.
  intros Hok. unfold linked_val.
  destruct (find_value g x) as [a|] eqn:Ea, (find_value g y) as [b|] eqn:Eb.
  - rewrite linked_reaches by (done || by eapply find_value_addrs).
    split; [eauto|]. by intros (? & ? & [= <-] & [= <-] & ?).
  - split; [done|]. by intros (? & ? & _ & ? & _).
  - split; [done|]. by intros (? & ? & ? & _).
  - split; [done|]. by intros (? & ? & ? & _).
Qed.

(** X6: on a DAG, [unlink(s, t)] with [t] a node of the DAG
    never throws; it returns whether [t] was a target of [s], removes one
    occurrence of [t] from the targets of [s] if there was one, and leaves
    the targets of every other node unchanged. *)
Theorem unlink_result g s t :
  dag_ok g -> t ∈ addrs g ->
  (unlink g s t).2 = Ret (bool_decide (t ∈ targets_of g s)) /\
  (forall x, x <> s -> targets_of (unlink g s t).1 x = targets_of g x) /\
  (t ∈ targets_of g s -> targets_of g s ≡ₚ t :: targets_of (unlink g s t).1 s) /\
  (t ∉ targets_of g s -> targets_of (unlink g s t).1 s = targets_of g s).
Proof.
  intros Hok Ht. destruct (unlink_spec g s t Hok Ht) as (Hret & _ & Htg).
  split_and!; [done| | |].
  - intros x Hne. by rewrite Htg, decide_False.
  - intros Hin. rewrite Htg, decide_True by done.
    destruct (remove_first t (targets_of g s)) as [ts'|] eqn:E.
    + by apply remove_first_perm.
    + by apply remove_first_None in E.
  - intros Hnin. rewrite Htg, decide_True by done.
    apply remove_first_None in Hnin. by rewrite Hnin.
Qed.

(** X8: the range [erase] does not unlink the erased nodes: if a node
    outside the range has a node inside the range as a target, the DAG it
    leaves has a target that is no longer one of its nodes. *)
Theorem erase_range_dangling g b e p q n m :
  NoDup (addrs g) -> (b <= p < e)%nat -> (q < b \/ e <= q)%nat ->
  g !! p = Some n -> g !! q = Some m -> node_addr n ∈ targets_ m ->
  ~ closed (erase_range g b e).
Proof.
  intros Hnd Hp Hq Hn Hm Ht Hcl.
  assert (Hm' : m ∈ erase_range g b e).
  { unfold erase_range. apply elem_of_app. destruct Hq as [Hq|Hq].
    - left. apply list_elem_of_lookup. exists q. by apply lookup_take_Some.
    - right. apply list_elem_of_lookup. exists (q - e)%nat. rewrite lookup_drop.
      by replace (e + (q - e))%nat with q by lia. }
  pose proof (Hcl m _ Hm' Ht) as Hin.
  assert (HA : addrs g !! p = Some (node_addr n)).
  { unfold addrs. rewrite list_lookup_fmap.
    change (node_addr <$> (g !! p) = Some (node_addr n)). by rewrite Hn. }
  unfold erase_range, addrs in Hin. rewrite fmap_app, fmap_take, fmap_drop in Hin.
  apply elem_of_app in Hin as [Hin|Hin]; apply list_elem_of_lookup in Hin as [i Hi].
  - apply lookup_take_Some in Hi as [Hi Hib].
    pose proof (NoDup_lookup _ _ _ _ Hnd Hi HA). lia.
  - rewrite lookup_drop in Hi. pose proof (NoDup_lookup _ _ _ _ Hnd Hi HA). lia.
Qed.


End ExtraDagProofs.

(** ** Further properties of the tracker *)

Section ExtraTrackerProofs.
Context {V : Type} `{EqDecision V}.
Implicit Types (g h : @dag V) (n : @node V) (d : @tracker V).

(** *** Values and addresses through [link] and [unlink] *)

Lemma find_value_fmap (f : @node V -> @node V) g v :
  (forall n, node_addr (f n) = node_addr n) -> (forall n, value_ (f n) = value_ n) ->
  find_value (f <$> g) v = find_value g v.
Proof.
  intros Ha Hv. induction g as [|n g IH]; [done|].
  change (f <$> n :: g) with (f n :: (f <$> g)). rewrite !find_value_cons, Ha, Hv, IH. done.
Qed.

Lemma find_value_apply_scores (f : Z -> Z) l g v :
  find_value (apply_scores f l g) v = find_value g v.
Proof.
  unfold apply_scores. revert g. induction l as [|c l IH]; intros g; simpl; [done|].
  rewrite IH. unfold update_score. apply find_value_fmap; intros n; by destruct (decide _).
Qed.

Lemma find_value_set_targets g s ts v : find_value (set_targets g s ts) v = find_value g v.
Proof. apply find_value_fmap; intros n; by destruct (decide _). Qed.

Lemma find_value_link g s t v :
  NoDup (values g) -> find_value (link g s t).1 v = find_value g v.
Proof.
  intros Hnd. unfold link. destruct (visit _ g _ t) as [l0 []]; [done|].
  destruct (visit _ _ [] t) as [l []]; simpl.
  - by rewrite find_value_apply_scores, find_value_set_targets.
  - unfold sort_by_score. erewrite find_value_perm; [|apply merge_sort_Permutation|].
    + by rewrite find_value_apply_scores, find_value_set_targets.
    + by rewrite values_apply_scores, values_set_targets.
Qed.

Lemma find_value_unlink g s t v :
  NoDup (values g) -> find_value (unlink g s t).1 v = find_value g v.
Proof.
  intros Hnd. unfold unlink.
  assert (exists g1 rv, (match remove_first t (targets_of g s) with
                         | Some ts' => (set_targets g s ts', true)
                         | None => (g, false) end) = (g1, rv) /\ values g1 = values g /\
          find_value g1 v = find_value g v)
    as (g1 & rv & -> & Hv1 & Hf1).
  { destruct (remove_first t (targets_of g s)); eexists _, _; (split; [done|]); [|done].
    by rewrite values_set_targets, find_value_set_targets. }
  destruct (visit _ g1 [] t) as [l []]; simpl.
  - by rewrite find_value_apply_scores.
  - unfold sort_by_addr. erewrite find_value_perm; [|apply merge_sort_Permutation|].
    + by rewrite find_value_apply_scores.
    + by rewrite values_apply_scores, Hv1.
Qed.

Lemma addrs_link g s t : addrs (link g s t).1 ≡ₚ addrs g.
Proof.
  unfold link. destruct (visit _ g _ t) as [l0 []]; [done|].
  destruct (visit _ _ [] t) as [l []]; simpl.
  - by rewrite addrs_apply_scores, addrs_set_targets.
  - unfold sort_by_score, addrs. rewrite merge_sort_Permutation.
    change (addrs (apply_scores (fun x => (x + score_of (set_targets g s (targets_of g s ++ [t])) s)
      mod score_modulus) l (set_targets g s (targets_of g s ++ [t]))) ≡ₚ addrs g).
    by rewrite addrs_apply_scores, addrs_set_targets.
Qed.

Lemma find_value_inj g u x a :
  NoDup (addrs g) -> find_value g u = Some a -> find_value g x = Some a -> u = x.
Proof.
  intros Hnd (n1 & Hn1 & <- & Ha1)%find_value_Some (n2 & Hn2 & <- & Ha2)%find_value_Some.
  pose proof (lookup_node_complete g n1 Hnd Hn1) as E1.
  pose proof (lookup_node_complete g n2 Hnd Hn2) as E2.
  rewrite Ha1 in E1. rewrite Ha2 in E2. congruence.
Qed.

Lemma targets_link g s t x :
  dag_ok g -> s ∈ addrs g -> t ∈ addrs g -> ~ reaches g t s ->
  targets_of (link g s t).1 x = if decide (x = s) then targets_of g s ++ [t] else targets_of g x.
Proof.
  intros Hok Hs Ht Hnr. destruct (link_spec g s t Hok Hs Ht Hnr) as (l & _ & ->). simpl.
  unfold sort_by_score. erewrite targets_of_perm; [|apply merge_sort_Permutation|].
  2:{ rewrite addrs_apply_scores, addrs_set_targets. by destruct Hok. }
  rewrite targets_of_apply_scores. destruct (decide (x = s)) as [->|Hne].
  - by apply targets_of_set_targets_eq.
  - by apply targets_of_set_targets_ne.
Qed.

(** *** Edge multiplicities through [link] and [unlink] *)

Lemma vcount_link g x y a b u w :
  dag_ok g -> NoDup (values g) -> find_value g x = Some a -> find_value g y = Some b ->
  ~ reaches g b a ->
  vcount (link g a b).1 u w = (vcount g u w + if bool_decide (u = x /\ w = y) then 1 else 0)%nat.
Proof.
  intros Hok Hnd Ha Hb Hnr. assert (Hnda : NoDup (addrs g)) by (by destruct Hok).
  unfold vcount. rewrite !find_value_link by done.
  destruct (find_value g u) as [ua|] eqn:Eu, (find_value g w) as [wa|] eqn:Ew.
  - rewrite targets_link by (done || by eapply find_value_addrs).
    destruct (decide (ua = a)) as [->|Hne].
    + pose proof (find_value_inj g u x a Hnda Eu Ha) as ->.
      rewrite count_occ_app. simpl.
      destruct (Nat.eq_dec b wa) as [->|Hbw].
      * pose proof (find_value_inj g w y wa Hnda Ew Hb) as ->. rewrite bool_decide_true by done. (unfold addr in *; lia).
      * rewrite bool_decide_false; [(unfold addr in *; lia)|]. intros [_ ->]. congruence.
    + rewrite bool_decide_false; [(unfold addr in *; lia)|]. intros [-> _]. congruence.
  - rewrite bool_decide_false; [done|]. intros [_ ->]. congruence.
  - rewrite bool_decide_false; [done|]. intros [-> _]. congruence.
  - rewrite bool_decide_false; [done|]. intros [-> _]. congruence.
Qed.

Lemma vcount_unlink g x y a b u w :
  dag_ok g -> NoDup (values g) -> find_value g x = Some a -> find_value g y = Some b ->
  vcount (unlink g a b).1 u w = (vcount g u w - if bool_decide (u = x /\ w = y) then 1 else 0)%nat.
Proof.
  intros Hok Hnd Ha Hb. assert (Hnda : NoDup (addrs g)) by (by destruct Hok).
  destruct (unlink_spec g a b Hok (find_value_addrs _ _ _ Hb)) as (_ & _ & Htg).
  unfold vcount. rewrite !find_value_unlink by done.
  destruct (find_value g u) as [ua|] eqn:Eu, (find_value g w) as [wa|] eqn:Ew.
  - rewrite Htg. destruct (decide (ua = a)) as [->|Hne].
    + pose proof (find_value_inj g u x a Hnda Eu Ha) as ->.
      destruct (remove_first b (targets_of g a)) as [ts'|] eqn:Er; simpl.
      * apply remove_first_perm in Er. rewrite (proj1 (Permutation_count_occ Nat.eq_dec _ _) Er wa).
        simpl. destruct (Nat.eq_dec b wa) as [->|Hbw].
        -- pose proof (find_value_inj g w y wa Hnda Ew Hb) as ->. rewrite bool_decide_true by done. (unfold addr in *; lia).
        -- rewrite bool_decide_false; [(unfold addr in *; lia)|]. intros [_ ->]. congruence.
      * apply remove_first_None in Er.
        destruct (decide (w = y)) as [->|Hwy].
        -- rewrite Ew in Hb. injection Hb as ->. rewrite bool_decide_true by done.
           assert (count_occ Nat.eq_dec (targets_of g a) b = 0%nat) as ->; [|done].
           apply count_occ_not_In. by rewrite <- list_elem_of_In.
        -- rewrite bool_decide_false; [(unfold addr in *; lia)|]. by intros [_ ?].
    + rewrite bool_decide_false; [(unfold addr in *; lia)|]. intros [-> _]. congruence.
  - rewrite bool_decide_false; [done|]. intros [_ ->]. congruence.
  - rewrite bool_decide_false; [done|]. intros [-> _]. congruence.
  - rewrite bool_decide_false; [done|]. intros [-> _]. congruence.
Qed.

(** Edges mirrored with their multiplicities give mirrored paths. *)
Lemma mirror_reaches g h x y a b :
  dag_ok g -> NoDup (values g) -> (forall v, v ∈ values g -> v ∈ values h) ->
  (forall u w, vcount g u w = vcount h w u) ->
  find_value g x = Some a -> find_value g y = Some b -> reaches g a b ->
  exists a' b', find_value h x = Some a' /\ find_value h y = Some b' /\ reaches h b' a'.
Proof.
  intros Hok Hnd Hvals Hm Ha Hb Hr. destruct Hok as (Hnda & Hcl & _ & _).
  revert x Ha. induction Hr as [c|c e f Hce Hef IH]; intros x Ha.
  - pose proof (find_value_inj g x y c Hnda Ha Hb) as ->.
    destruct (find_value h y) as [a'|] eqn:E.
    + exists a', a'. split_and!; [done|done|constructor].
    + exfalso. apply find_value_None in E. apply E, Hvals.
      apply find_value_Some in Hb as (n & Hn & <- & _). by apply list_elem_of_fmap_2.
  - assert (He : e ∈ addrs g) by (by eapply edge_closed).
    apply list_elem_of_fmap in He as (ne & -> & Hne).
    assert (Hz : find_value g (value_ ne) = Some (node_addr ne)) by (by apply find_value_unique).
    destruct (IH Hb (value_ ne) Hz) as (c' & b' & Hc' & Hb' & Hr').
    assert (Hpos : vcount g x (value_ ne) <> 0%nat).
    { unfold vcount. rewrite Ha, Hz. apply edge_targets_of in Hce; [|done].
      rewrite list_elem_of_In, (count_occ_In Nat.eq_dec) in Hce. lia. }
    rewrite Hm in Hpos. unfold vcount in Hpos. rewrite Hc' in Hpos.
    destruct (find_value h x) as [a'|] eqn:Ea; [|done].
    exists a', b'. split_and!; [done|done|].
    eapply reaches_trans; [exact Hr'|]. eapply reaches_step; [|constructor].
    apply targets_of_edge. rewrite list_elem_of_In, (count_occ_In Nat.eq_dec). lia.
Qed.

(** *** A fresh node *)

Lemma targets_of_cons n g c :
  targets_of (n :: g) c = if bool_decide (node_addr n = c) then targets_ n else targets_of g c.
Proof. unfold targets_of, lookup_node. simpl. by case_bool_decide. Qed.

Lemma vcount_insert_new g v a x y :
  dag_ok g -> a ∉ addrs g -> v ∉ values g ->
  vcount (mkNode a v 1 [] :: g) x y = if bool_decide (x = v \/ y = v) then 0%nat else vcount g x y.
Proof.
  intros (Hnd & Hcl & _ & _) Ha Hv. unfold vcount. rewrite !find_value_cons. simpl.
  case_bool_decide as Hx.
  - subst x. rewrite (bool_decide_true (v = v \/ y = v)) by (by left).
    rewrite targets_of_cons, (bool_decide_true (a = a)) by done.
    simpl. destruct (bool_decide (v = y)); [done|]. by destruct (find_value g y).
  - case_bool_decide as Hy.
    + subst y. rewrite (bool_decide_true (x = v \/ v = v)) by (by right).
      destruct (find_value g x) as [xa|] eqn:Ex; [|done].
      assert (Hxa : xa ∈ addrs g) by (by eapply find_value_addrs).
      rewrite targets_of_cons; simpl; rewrite (bool_decide_false (a = xa)) by (intros ->; contradiction).
      apply count_occ_not_In. rewrite <- list_elem_of_In. intros Hin.
      apply Ha. eapply edge_closed; [done|]. by apply targets_of_edge in Hin.
    + rewrite bool_decide_false by (intros [?|?]; congruence).
      destruct (find_value g x) as [xa|] eqn:Ex; [|done].
      assert (Hxa : xa ∈ addrs g) by (by eapply find_value_addrs).
      rewrite targets_of_cons; simpl; rewrite (bool_decide_false (a = xa)) by (intros ->; contradiction). done.
Qed.

(** *** The tracker's invariant *)

Lemma tracker_ok_empty : tracker_ok (@empty_tracker V).
Proof.
  split_and!; try done.
  - constructor.
  - apply dag_ok_nil.
  - apply dag_ok_nil.
  - intros a Ha. by apply not_elem_of_nil in Ha.
Qed.

Lemma in_storage_find d v :
  tracker_ok d -> v ∈ storage_ d ->
  exists a b, find_value (dependants_ d) v = Some a /\ find_value (prerequisites_ d) v = Some b.
Proof.
  intros (_ & Hvd & Hvp & _) Hv.
  destruct (find_value (dependants_ d) v) as [a|] eqn:Ea.
  2:{ apply find_value_None in Ea. exfalso. apply Ea. by rewrite Hvd. }
  destruct (find_value (prerequisites_ d) v) as [b|] eqn:Eb.
  2:{ apply find_value_None in Eb. exfalso. apply Eb. by rewrite Hvp. }
  eauto.
Qed.

Lemma tracker_ok_set_dags d dep pre :
  tracker_ok d -> values dep ≡ₚ values (dependants_ d) -> values pre ≡ₚ values (prerequisites_ d) ->
  dag_ok dep -> dag_ok pre ->
  addrs dep ≡ₚ addrs (dependants_ d) -> addrs pre ≡ₚ addrs (prerequisites_ d) ->
  (forall x y, vcount dep x y = vcount pre y x) -> tracker_ok (set_dags d dep pre).
Proof.
  intros (Hnd & Hvd & Hvp & _ & _ & Hheap & Hsel & _) Hv1 Hv2 Hok1 Hok2 Ha1 Ha2 Hm.
  unfold set_dags. split_and!; simpl; try done.
  - by rewrite Hv1.
  - by rewrite Hv2.
  - intros a Ha. apply Hheap. by rewrite <- Ha1, <- Ha2.
Qed.

Lemma t_insert_ok d v :
  tracker_ok d ->
  tracker_ok (t_insert d v).1 /\ v ∈ storage_ (t_insert d v).1 /\
  selected_ (t_insert d v).1 = selected_ d /\
  (forall x, x ∈ storage_ d -> x ∈ storage_ (t_insert d v).1).
Proof.
  intros Hok. unfold t_insert. destruct (decide (v ∈ storage_ d)) as [Hin|Hnin]; simpl; [done|].
  destruct Hok as (Hnd & Hvd & Hvp & Hokd & Hokp & Hheap & Hsel & Hm).
  assert (Hvd' : v ∉ values (dependants_ d)) by (by rewrite Hvd).
  assert (Hvp' : v ∉ values (prerequisites_ d)) by (by rewrite Hvp).
  assert (Had : S (heap_ d) ∉ addrs (dependants_ d)).
  { intros Ha. assert (S (heap_ d) < heap_ d)%nat; [|lia]. apply Hheap, elem_of_app. by left. }
  assert (Hap : heap_ d ∉ addrs (prerequisites_ d)).
  { intros Ha. assert (heap_ d < heap_ d)%nat; [|lia]. apply Hheap, elem_of_app. by right. }
  pose proof (insert_dag_ok _ v _ Hokd Had) as Hokd'.
  pose proof (insert_dag_ok _ v _ Hokp Hap) as Hokp'.
  pose proof (insert_fresh (prerequisites_ d) v (heap_ d) Hvp') as Ep.
  pose proof (insert_fresh (dependants_ d) v (S (heap_ d)) Hvd') as Ed.
  rewrite Ep in Hokp' |- *. rewrite Ed in Hokd' |- *. simpl in *.
  unfold tracker_ok; cbn [storage_ dependants_ prerequisites_ selected_ heap_].
  split_and!; try done.
  - apply NoDup_app. split_and!; [done| |apply NoDup_singleton].
    intros x Hx ->%list_elem_of_singleton. contradiction.
  - unfold values. simpl. change (v :: values (dependants_ d) ≡ₚ storage_ d ++ [v]).
    rewrite Hvd. apply Permutation_cons_append.
  - unfold values. simpl. change (v :: values (prerequisites_ d) ≡ₚ storage_ d ++ [v]).
    rewrite Hvp. apply Permutation_cons_append.
  - intros a Ha. unfold addrs in Ha. simpl in Ha.
    apply elem_of_cons in Ha as [->|Ha]; [lia|].
    apply elem_of_app in Ha as [Ha|Ha].
    + assert (a < heap_ d)%nat; [|lia]. apply Hheap, elem_of_app. by left.
    + apply elem_of_cons in Ha as [->|Ha]; [lia|].
      assert (a < heap_ d)%nat; [|lia]. apply Hheap, elem_of_app. by right.
  - intros s Hs. apply elem_of_app. left. by apply Hsel.
  - intros x y. rewrite !vcount_insert_new by done. rewrite Hm.
    case_bool_decide; case_bool_decide; tauto.
  - apply elem_of_app. right. by apply list_elem_of_singleton.
  - intros x Hx. apply elem_of_app. by left.
Qed.

Lemma tracker_ok_values_NoDup d :
  tracker_ok d -> NoDup (values (dependants_ d)) /\ NoDup (values (prerequisites_ d)).
Proof. intros (Hnd & Hvd & Hvp & _). by rewrite Hvd, Hvp. Qed.

Lemma set_dags_same d : set_dags d (dependants_ d) (prerequisites_ d) = d.
Proof. by destruct d. Qed.

Lemma select_ok d v :
  tracker_ok d ->
  tracker_ok (select d v).1 /\ (select d v).2 = Ret tt /\ selected_ (select d v).1 = Some v /\
  storage_ (select d v).1 = storage_ (t_insert d v).1.
Proof.
  intros Hok. destruct (t_insert_ok d v Hok) as (Hok1 & Hv & _ & _).
  unfold select, select_it, clearSelection. cbn [fst snd storage_ dependants_ prerequisites_ selected_ heap_].
  split_and!; try done.
  destruct Hok1 as (? & ? & ? & ? & ? & ? & _ & ?).
  split_and!; try done. cbn. by intros s [= <-].
Qed.

Lemma addDependant_it_ok d w :
  tracker_ok d -> w ∈ storage_ d -> selected_ d <> None ->
  tracker_ok (addDependant_it d w).1 /\ storage_ (addDependant_it d w).1 = storage_ d /\
  selected_ (addDependant_it d w).1 = selected_ d /\
  (((addDependant_it d w).2 = Ret tt /\
    forall s x y, selected_ d = Some s ->
      vcount (dependants_ (addDependant_it d w).1) x y =
      (vcount (dependants_ d) x y + if bool_decide (x = s /\ y = w) then 1 else 0)%nat) \/
   addDependant_it d w = (d, Throw CircularReference)).
Proof.
  intros Hok Hw Hsel0. pose proof Hok as Hok'.
  destruct (tracker_ok_values_NoDup d Hok) as [Hndd Hndp].
  destruct Hok as (Hnd & Hvd & Hvp & Hokd & Hokp & Hheap & Hsel & Hm).
  unfold addDependant_it. destruct (selected_ d) as [s|] eqn:Es; [|done].
  assert (Hs : s ∈ storage_ d) by auto.
  destruct (in_storage_find d s Hok' Hs) as (sa & sb & Esa & Esb).
  destruct (in_storage_find d w Hok' Hw) as (wa & wb & Ewa & Ewb).
  unfold link_val. rewrite Esa, Ewa.
  destruct (link_outcome (dependants_ d) sa wa Hokd (find_value_addrs _ _ _ Esa)
              (find_value_addrs _ _ _ Ewa)) as [[Hr Hl]|[Hnr Hl]].
  { rewrite Hl. cbn [fst snd]. rewrite set_dags_same. split_and!; auto. }
  pose proof (values_link (dependants_ d) sa wa) as Hv1.
  pose proof (addrs_link (dependants_ d) sa wa) as Ha1.
  pose proof (link_dag_ok (dependants_ d) sa wa Hokd (find_value_addrs _ _ _ Esa)
                (find_value_addrs _ _ _ Ewa)) as Hok1.
  pose proof (fun u x => vcount_link (dependants_ d) s w sa wa u x Hokd Hndd Esa Ewa Hnr) as Hc1.
  destruct (link (dependants_ d) sa wa) as [dep' r] eqn:Ed. simpl in Hl, Hv1, Ha1, Hok1, Hc1. subst r.
  rewrite Ewb, Esb.
  assert (Hnr' : ~ reaches (prerequisites_ d) sb wb).
  { intros Hr.
    assert (Hin : forall v, v ∈ values (prerequisites_ d) -> v ∈ values (dependants_ d))
      by (intros v Hv; by rewrite Hvd, <- Hvp).
    assert (Hm' : forall u x, vcount (prerequisites_ d) u x = vcount (dependants_ d) x u)
      by (intros u x; by rewrite Hm).
    destruct (mirror_reaches _ _ s w sb wb Hokp Hndp Hin Hm' Esb Ewb Hr)
      as (a' & b' & Ha' & Hb' & Hr').
    rewrite Esa in Ha'. rewrite Ewa in Hb'. simplify_eq; contradiction. }
  destruct (link_outcome (prerequisites_ d) wb sb Hokp (find_value_addrs _ _ _ Ewb)
              (find_value_addrs _ _ _ Esb)) as [[Hr _]|[_ Hl2]]; [contradiction|].
  pose proof (values_link (prerequisites_ d) wb sb) as Hv2.
  pose proof (addrs_link (prerequisites_ d) wb sb) as Ha2.
  pose proof (link_dag_ok (prerequisites_ d) wb sb Hokp (find_value_addrs _ _ _ Ewb)
                (find_value_addrs _ _ _ Esb)) as Hok2.
  pose proof (fun u x => vcount_link (prerequisites_ d) w s wb sb u x Hokp Hndp Ewb Esb Hnr') as Hc2.
  destruct (link (prerequisites_ d) wb sb) as [pre' r2] eqn:Ep. simpl in Hl2, Hv2, Ha2, Hok2, Hc2.
  subst r2. cbn [fst snd]. split_and!; [|done|done|left; split; [done|by intros s0 x y [= <-]]].
  apply tracker_ok_set_dags; try done.
  intros x y. rewrite Hc1, Hc2, Hm.
  case_bool_decide; case_bool_decide; first [tauto | lia].
Qed.

Lemma addPrerequisite_it_ok d w :
  tracker_ok d -> w ∈ storage_ d -> selected_ d <> None ->
  tracker_ok (addPrerequisite_it d w).1 /\ storage_ (addPrerequisite_it d w).1 = storage_ d /\
  selected_ (addPrerequisite_it d w).1 = selected_ d /\
  ((addPrerequisite_it d w).2 = Ret tt \/ addPrerequisite_it d w = (d, Throw CircularReference)).
Proof.
  intros Hok Hw Hsel0. pose proof Hok as Hok'.
  destruct (tracker_ok_values_NoDup d Hok) as [Hndd Hndp].
  destruct Hok as (Hnd & Hvd & Hvp & Hokd & Hokp & Hheap & Hsel & Hm).
  unfold addPrerequisite_it. destruct (selected_ d) as [s|] eqn:Es; [|done].
  assert (Hs : s ∈ storage_ d) by auto.
  destruct (in_storage_find d s Hok' Hs) as (sa & sb & Esa & Esb).
  destruct (in_storage_find d w Hok' Hw) as (wa & wb & Ewa & Ewb).
  unfold link_val. rewrite Esb, Ewb.
  destruct (link_outcome (prerequisites_ d) sb wb Hokp (find_value_addrs _ _ _ Esb)
              (find_value_addrs _ _ _ Ewb)) as [[Hr Hl]|[Hnr Hl]].
  { rewrite Hl. cbn [fst snd]. rewrite set_dags_same. split_and!; auto. }
  pose proof (values_link (prerequisites_ d) sb wb) as Hv1.
  pose proof (addrs_link (prerequisites_ d) sb wb) as Ha1.
  pose proof (link_dag_ok (prerequisites_ d) sb wb Hokp (find_value_addrs _ _ _ Esb)
                (find_value_addrs _ _ _ Ewb)) as Hok1.
  pose proof (fun u x => vcount_link (prerequisites_ d) s w sb wb u x Hokp Hndp Esb Ewb Hnr) as Hc1.
  destruct (link (prerequisites_ d) sb wb) as [pre' r] eqn:Ep. simpl in Hl, Hv1, Ha1, Hok1, Hc1. subst r.
  rewrite Ewa, Esa.
  assert (Hnr' : ~ reaches (dependants_ d) sa wa).
  { intros Hr.
    assert (Hin : forall v, v ∈ values (dependants_ d) -> v ∈ values (prerequisites_ d))
      by (intros v Hv; by rewrite Hvp, <- Hvd).
    destruct (mirror_reaches _ _ s w sa wa Hokd Hndd Hin Hm Esa Ewa Hr)
      as (a' & b' & Ha' & Hb' & Hr').
    rewrite Esb in Ha'. rewrite Ewb in Hb'. simplify_eq; contradiction. }
  destruct (link_outcome (dependants_ d) wa sa Hokd (find_value_addrs _ _ _ Ewa)
              (find_value_addrs _ _ _ Esa)) as [[Hr _]|[_ Hl2]]; [contradiction|].
  pose proof (values_link (dependants_ d) wa sa) as Hv2.
  pose proof (addrs_link (dependants_ d) wa sa) as Ha2.
  pose proof (link_dag_ok (dependants_ d) wa sa Hokd (find_value_addrs _ _ _ Ewa)
                (find_value_addrs _ _ _ Esa)) as Hok2.
  pose proof (fun u x => vcount_link (dependants_ d) w s wa sa u x Hokd Hndd Ewa Esa Hnr') as Hc2.
  destruct (link (dependants_ d) wa sa) as [dep' r2] eqn:Ed. simpl in Hl2, Hv2, Ha2, Hok2, Hc2.
  subst r2. cbn [fst snd]. split_and!; [|done|done|by left].
  apply tracker_ok_set_dags; try done.
  intros x y. rewrite Hc1, Hc2, Hm.
  case_bool_decide; case_bool_decide; first [tauto | lia].
Qed.

Lemma removeDependant_it_ok d w :
  tracker_ok d -> selected_ d <> None -> (forall v, w = Some v -> v ∈ storage_ d) ->
  tracker_ok (removeDependant_it d w).1 /\ storage_ (removeDependant_it d w).1 = storage_ d /\
  selected_ (removeDependant_it d w).1 = selected_ d /\ (removeDependant_it d w).2 = Ret tt /\
  (forall s wv x y, selected_ d = Some s -> w = Some wv ->
     vcount (dependants_ (removeDependant_it d w).1) x y =
     (vcount (dependants_ d) x y - if bool_decide (x = s /\ y = wv) then 1 else 0)%nat).
Proof.
  intros Hok Hsel0 Hw. pose proof Hok as Hok'.
  destruct (tracker_ok_values_NoDup d Hok) as [Hndd Hndp].
  destruct Hok as (Hnd & Hvd & Hvp & Hokd & Hokp & Hheap & Hsel & Hm).
  unfold removeDependant_it. destruct (selected_ d) as [s|] eqn:Es; [|done].
  destruct w as [wv|]; [|split_and!; try done; by intros ???? _ ?].
  assert (Hs : s ∈ storage_ d) by auto.
  destruct (in_storage_find d s Hok' Hs) as (sa & sb & Esa & Esb).
  destruct (in_storage_find d wv Hok' (Hw wv eq_refl)) as (wa & wb & Ewa & Ewb).
  unfold unlink_val. rewrite Esa, Ewa.
  destruct (unlink_spec (dependants_ d) sa wa Hokd (find_value_addrs _ _ _ Ewa)) as (Hr1 & Ha1 & _).
  pose proof (values_unlink (dependants_ d) sa wa) as Hv1.
  pose proof (unlink_dag_ok (dependants_ d) sa wa Hokd) as Hok1.
  pose proof (fun u x => vcount_unlink (dependants_ d) s wv sa wa u x Hokd Hndd Esa Ewa) as Hc1.
  destruct (unlink (dependants_ d) sa wa) as [dep' r] eqn:Ed. simpl in Hr1, Ha1, Hv1, Hok1, Hc1.
  subst r. rewrite Ewb, Esb.
  destruct (unlink_spec (prerequisites_ d) wb sb Hokp (find_value_addrs _ _ _ Esb)) as (Hr2 & Ha2 & _).
  pose proof (values_unlink (prerequisites_ d) wb sb) as Hv2.
  pose proof (unlink_dag_ok (prerequisites_ d) wb sb Hokp) as Hok2.
  pose proof (fun u x => vcount_unlink (prerequisites_ d) wv s wb sb u x Hokp Hndp Ewb Esb) as Hc2.
  destruct (unlink (prerequisites_ d) wb sb) as [pre' r] eqn:Ep. simpl in Hr2, Ha2, Hv2, Hok2, Hc2.
  subst r. cbn [fst snd]. split_and!; try done;
    [|by intros s0 wv0 x y [= <-] [= <-]].
  apply tracker_ok_set_dags; try done.
  intros x y. rewrite Hc1, Hc2, Hm.
  destruct (decide (x = s /\ y = wv)).
  - rewrite !bool_decide_true by tauto. done.
  - rewrite !bool_decide_false by tauto. done.
Qed.

Lemma removePrerequisite_it_ok d w :
  tracker_ok d -> selected_ d <> None -> (forall v, w = Some v -> v ∈ storage_ d) ->
  tracker_ok (removePrerequisite_it d w).1 /\ storage_ (removePrerequisite_it d w).1 = storage_ d /\
  selected_ (removePrerequisite_it d w).1 = selected_ d /\ (removePrerequisite_it d w).2 = Ret tt.
Proof.
  intros Hok Hsel0 Hw. pose proof Hok as Hok'.
  destruct (tracker_ok_values_NoDup d Hok) as [Hndd Hndp].
  destruct Hok as (Hnd & Hvd & Hvp & Hokd & Hokp & Hheap & Hsel & Hm).
  unfold removePrerequisite_it. destruct (selected_ d) as [s|] eqn:Es; [|done].
  destruct w as [wv|]; [|done].
  assert (Hs : s ∈ storage_ d) by auto.
  destruct (in_storage_find d s Hok' Hs) as (sa & sb & Esa & Esb).
  destruct (in_storage_find d wv Hok' (Hw wv eq_refl)) as (wa & wb & Ewa & Ewb).
  assert (Heq : bool_decide (sa ∈ targets_of (dependants_ d) wa) =
                bool_decide (wb ∈ targets_of (prerequisites_ d) sb)).
  { apply bool_decide_ext. pose proof (Hm wv s) as H. unfold vcount in H.
    rewrite Ewa, Esa, Esb, Ewb in H.
    rewrite !list_elem_of_In, !(count_occ_In Nat.eq_dec), H. done. }
  unfold unlink_val. rewrite Esb, Ewb.
  destruct (unlink_spec (prerequisites_ d) sb wb Hokp (find_value_addrs _ _ _ Ewb)) as (Hr1 & Ha1 & _).
  pose proof (values_unlink (prerequisites_ d) sb wb) as Hv1.
  pose proof (unlink_dag_ok (prerequisites_ d) sb wb Hokp) as Hok1.
  pose proof (fun u x => vcount_unlink (prerequisites_ d) s wv sb wb u x Hokp Hndp Esb Ewb) as Hc1.
  destruct (unlink (prerequisites_ d) sb wb) as [pre' r] eqn:Ep. simpl in Hr1, Ha1, Hv1, Hok1, Hc1.
  subst r. rewrite Ewa, Esa.
  destruct (unlink_spec (dependants_ d) wa sa Hokd (find_value_addrs _ _ _ Esa)) as (Hr2 & Ha2 & _).
  pose proof (values_unlink (dependants_ d) wa sa) as Hv2.
  pose proof (unlink_dag_ok (dependants_ d) wa sa Hokd) as Hok2.
  pose proof (fun u x => vcount_unlink (dependants_ d) wv s wa sa u x Hokd Hndd Ewa Esa) as Hc2.
  destruct (unlink (dependants_ d) wa sa) as [dep' r] eqn:Ed. simpl in Hr2, Ha2, Hv2, Hok2, Hc2.
  subst r. rewrite Heq, bool_decide_true by done. cbn [fst snd]. split_and!; try done.
  apply tracker_ok_set_dags; try done.
  intros x y. rewrite Hc1, Hc2, Hm.
  destruct (decide (x = wv /\ y = s)).
  - rewrite !bool_decide_true by tauto. done.
  - rewrite !bool_decide_false by tauto. done.
Qed.

Lemma t_find_Some d v x : t_find d v = Some x -> x = v /\ v ∈ storage_ d.
Proof. unfold t_find. case_decide; by intros [= <-]. Qed.

Lemma run_top_ok d op : tracker_ok d -> tracker_ok (run_top d op).
Proof.
  intros Hok. destruct op as [v|v|v|v|v|v]; simpl.
  - by apply t_insert_ok.
  - by apply select_ok.
  - unfold addPrerequisite. destruct (t_insert_ok d v Hok) as (Hok1 & Hv & _).
    destruct (selected_ (t_insert d v).1) eqn:Es.
    + apply addPrerequisite_it_ok; congruence.
    + unfold addPrerequisite_it. by rewrite Es.
  - unfold addDependant. destruct (t_insert_ok d v Hok) as (Hok1 & Hv & _).
    destruct (selected_ (t_insert d v).1) eqn:Es.
    + apply addDependant_it_ok; congruence.
    + unfold addDependant_it. by rewrite Es.
  - unfold removePrerequisite. destruct (selected_ d) eqn:Es.
    + apply removePrerequisite_it_ok; [done|congruence|]. by intros x (-> & ?)%t_find_Some.
    + unfold removePrerequisite_it. by rewrite Es.
  - unfold removeDependant. destruct (selected_ d) eqn:Es.
    + apply removeDependant_it_ok; [done|congruence|]. by intros x (-> & ?)%t_find_Some.
    + unfold removeDependant_it. by rewrite Es.
Qed.

Lemma run_tops_ok d ops : tracker_ok d -> tracker_ok (run_tops d ops).
Proof.
  unfold run_tops. revert d. induction ops as [|op ops IH]; intros d Hok; simpl; [done|].
  apply IH, run_top_ok, Hok.
Qed.

Lemma reachable_tracker_ok d : tracker_reachable d -> tracker_ok d.
Proof. intros [ops <-]. apply run_tops_ok, tracker_ok_empty. Qed.

Lemma not_in_storage_find d v :
  tracker_ok d -> v ∉ storage_ d ->
  find_value (dependants_ d) v = None /\ find_value (prerequisites_ d) v = None.
Proof.
  intros (_ & Hvd & Hvp & _) Hv. rewrite !find_value_None, Hvd, Hvp. done.
Qed.

(** *** What a traversal collects *)

Lemma visit_targets_elem (f : addr -> list addr * bool) ts x :
  (visit_targets f ts).2 = false ->
  (x ∈ (visit_targets f ts).1 <-> exists t, t ∈ ts /\ x ∈ (f t).1) /\
  (forall t, t ∈ ts -> (f t).2 = false).
Proof.
  induction ts as [|t ts IH]; simpl; intros Hv.
  - split; [|by intros ? ?%elem_of_nil]. split; [by intros ?%elem_of_nil|].
    by intros (? & ?%elem_of_nil & _).
  - destruct (f t) as [l1 b1] eqn:Ef. destruct b1; [done|].
    destruct (visit_targets f ts) as [l2 b2] eqn:Eg. simpl in *. subst b2.
    destruct (IH eq_refl) as [IH1 IH2]. split.
    + rewrite elem_of_app, IH1. split.
      * intros [Hx|(u & Hu & Hx)].
        -- exists t. rewrite Ef. split; [apply elem_of_cons; by left|done].
        -- exists u. split; [apply elem_of_cons; by right|done].
      * intros (u & [->|Hu]%elem_of_cons & Hx).
        -- left. by rewrite Ef in Hx.
        -- right. eauto.
    + intros u [->|Hu]%elem_of_cons; [by rewrite Ef|auto].
Qed.

(** When a traversal does not throw, it has collected exactly the nodes
    reachable from its start. *)
Lemma visit_elem g fuel flagged a x :
  NoDup (addrs g) -> (visit fuel g flagged a).2 = false ->
  x ∈ (visit fuel g flagged a).1 <-> reaches g a x.
Proof.
  intros Hnd. revert flagged a. induction fuel as [|k IH]; intros flagged a Hv; simpl in *; [done|].
  destruct (decide (a ∈ flagged)); [done|].
  pose proof (visit_targets_elem (visit k g (scoped_flag flagged a)) (targets_of g a) x) as Hel.
  destruct (visit_targets _ (targets_of g a)) as [l thrown] eqn:E. simpl in *. subst thrown.
  destruct (Hel eq_refl) as [Hel1 Hel2]. rewrite elem_of_cons, Hel1. split.
  - intros [->|(t & Ht & Hx)]; [constructor|].
    apply (IH _ _ (Hel2 t Ht)) in Hx. econstructor; [by apply targets_of_edge|done].
  - intros Hr. inversion Hr as [|? b ? He Hr']; subst; [by left|]. right.
    apply edge_targets_of in He; [|done]. exists b. split; [done|].
    by apply (IH _ _ (Hel2 b He)).
Qed.

Lemma get_related_spec g s all a :
  dag_ok g -> find_value g s = Some a ->
  exists l, get_related g (Some s) all = Ret l /\ NoDup l /\
    forall v, v ∈ l <-> exists b, value_of g b = Some v /\
      (if all then reaches_plus g a b else b ∈ targets_of g a).
Proof.
  intros Hok Ha. pose proof Hok as (Hnd & Hcl & _ & _).
  unfold get_related. rewrite Ha. destruct all.
  - assert (Hnt : (visit_targets (visit (visit_fuel g) g []) (targets_of g a)).2 = false).
    { destruct (visit_targets _ _).2 eqn:E; [|done].
      apply visit_targets_thrown in E as (t & Ht & Hth).
      apply visit_thrown_iff in Hth as (p & Hp%elem_of_nil & _); try done.
      - eapply edge_closed; [done|]. by apply targets_of_edge.
      - constructor.
      - by intros ? ?%elem_of_nil.
      - unfold visit_fuel. simpl. lia. }
    pose proof (fun b => visit_targets_elem (visit (visit_fuel g) g []) (targets_of g a) b Hnt) as Hel.
    destruct (visit_targets _ (targets_of g a)) as [l thrown] eqn:E. cbn [fst snd] in Hnt, Hel. subst thrown.
    eexists. split; [done|]. split; [apply NoDup_remove_dups|].
    intros v. unfold node_values. rewrite elem_of_remove_dups, list_elem_of_omap. split.
    + intros (b & Hb & Hv). exists b. split; [done|].
      destruct (Hel b) as [H1 H2]. apply H1 in Hb as (t & Ht & Hbt).
      apply visit_elem in Hbt; [|done|by apply H2]. exists t. split; [by apply targets_of_edge|done].
    + intros (b & Hv & t & He & Hr). exists b. split; [|done].
      destruct (Hel b) as [H1 H2]. apply H1. apply edge_targets_of in He; [|done].
      exists t. split; [done|]. apply visit_elem; [done|by apply H2|done].
  - eexists. split; [done|]. split; [apply NoDup_remove_dups|].
    intros v. unfold node_values. rewrite elem_of_remove_dups, list_elem_of_omap.
    split; intros (b & ? & ?); eauto.
Qed.

(** *** Properties of the tracker *)

(** X10: every tracker built from the empty one by [insert], [select],
    [addPrerequisite], [addDependant], [removePrerequisite] and
    [removeDependant] calls (an exception being caught by the caller) keeps
    the invariant [tracker_ok]. *)
Theorem tracker_reachable_ok d : tracker_reachable d -> tracker_ok d.
Proof. apply reachable_tracker_ok. Qed.

(** X11: on a reachable tracker [depends(target, source)] never fails its
    consistency assertion: it returns whether the node of [source] reaches
    the node of [target] in [dependants_], which holds exactly when the node
    of [target] reaches the node of [source] in [prerequisites_]. A value
    not in the tracker depends on nothing and nothing depends on it. *)
Theorem depends_reaches d x y :
  tracker_reachable d ->
  exists b, depends d x y = Ret b /\
    (b = true <-> exists a c, find_value (dependants_ d) y = Some a /\
                   find_value (dependants_ d) x = Some c /\ reaches (dependants_ d) a c) /\
    (b = true <-> exists a c, find_value (prerequisites_ d) x = Some a /\
                   find_value (prerequisites_ d) y = Some c /\ reaches (prerequisites_ d) a c).
Proof.
  intros Hr. pose proof (reachable_tracker_ok d Hr) as Hok. pose proof Hok as Hok'.
  destruct (tracker_ok_values_NoDup d Hok) as [Hndd Hndp].
  destruct Hok as (Hnd & Hvd & Hvp & Hokd & Hokp & Hheap & Hsel & Hm).
  unfold depends, depends_it, t_find.
  destruct (decide (x ∈ storage_ d)) as [Hx|Hx]; [destruct (decide (y ∈ storage_ d)) as [Hy|Hy]|].
  - destruct (in_storage_find d x Hok' Hx) as (xa & xb & Exa & Exb).
    destruct (in_storage_find d y Hok' Hy) as (ya & yb & Eya & Eyb).
    unfold linked_val. rewrite Eya, Exa, Exb, Eyb.
    assert (H1 : linked (dependants_ d) ya xa = true <-> reaches (dependants_ d) ya xa)
      by (apply linked_reaches; [done|by eapply find_value_addrs..]).
    assert (H2 : linked (prerequisites_ d) xb yb = true <-> reaches (prerequisites_ d) xb yb)
      by (apply linked_reaches; [done|by eapply find_value_addrs..]).
    assert (H3 : reaches (dependants_ d) ya xa <-> reaches (prerequisites_ d) xb yb).
    { split; intros Hr'.
      - assert (Hin : forall v, v ∈ values (dependants_ d) -> v ∈ values (prerequisites_ d))
          by (intros v Hv; by rewrite Hvp, <- Hvd).
        destruct (mirror_reaches _ _ y x ya xa Hokd Hndd Hin Hm Eya Exa Hr')
          as (a' & b' & Ha' & Hb' & Hr2).
        rewrite Eyb in Ha'. rewrite Exb in Hb'. by simplify_eq.
      - assert (Hin : forall v, v ∈ values (prerequisites_ d) -> v ∈ values (dependants_ d))
          by (intros v Hv; by rewrite Hvd, <- Hvp).
        assert (Hm' : forall u w, vcount (prerequisites_ d) u w = vcount (dependants_ d) w u)
          by (intros u w; by rewrite Hm).
        destruct (mirror_reaches _ _ x y xb yb Hokp Hndp Hin Hm' Exb Eyb Hr')
          as (a' & b' & Ha' & Hb' & Hr2).
        rewrite Exa in Ha'. rewrite Eya in Hb'. by simplify_eq. }
    assert (Heq : linked (dependants_ d) ya xa = linked (prerequisites_ d) xb yb).
    { destruct (linked (dependants_ d) ya xa), (linked (prerequisites_ d) xb yb); try done;
        exfalso; naive_solver. }
    rewrite Heq, bool_decide_true by done. rewrite <- Heq.
    exists (linked (dependants_ d) ya xa). split; [done|]. rewrite H1. split.
    + split; [eauto|]. by intros (a & c & [= <-] & [= <-] & ?).
    + rewrite H3. split; [eauto|]. by intros (a & c & [= <-] & [= <-] & ?).
  - destruct (not_in_storage_find d y Hok' Hy) as [Hn1 Hn2].
    exists false. split; [done|]. split; split; try done;
      intros (a & c & Ha & Hc & _); congruence.
  - destruct (not_in_storage_find d x Hok' Hx) as [Hn1 Hn2].
    exists false. split; [by destruct (decide (y ∈ storage_ d))|]. split; split; try done;
      intros (a & c & Ha & Hc & _); congruence.
Qed.

(** X12: on a reachable tracker with a selection, [removePrerequisite(v)]
    and [removeDependant(v)] never throw, and [addPrerequisite(v)] and
    [addDependant(v)] either succeed or throw [CircularReference] leaving
    the tracker as [insert(v)] left it. *)
Theorem tracker_calls_outcomes d v :
  tracker_reachable d -> selected_ d <> None ->
  (removePrerequisite d v).2 = Ret tt /\ (removeDependant d v).2 = Ret tt /\
  ((addPrerequisite d v).2 = Ret tt \/
     addPrerequisite d v = ((t_insert d v).1, Throw CircularReference)) /\
  ((addDependant d v).2 = Ret tt \/
     addDependant d v = ((t_insert d v).1, Throw CircularReference)).
Proof.
  intros Hr Hsel. pose proof (reachable_tracker_ok d Hr) as Hok.
  assert (Hw : forall x, t_find d v = Some x -> x ∈ storage_ d) by (by intros x (-> & ?)%t_find_Some).
  destruct (t_insert_ok d v Hok) as (Hok1 & Hv1 & Hs1 & _).
  assert (Hsel1 : selected_ (t_insert d v).1 <> None) by congruence.
  split_and!.
  - by apply removePrerequisite_it_ok.
  - by apply removeDependant_it_ok.
  - by apply addPrerequisite_it_ok.
  - destruct (addDependant_it_ok _ v Hok1 Hv1 Hsel1) as (_ & _ & _ & [[? _]|?]);
      [left|right]; done.
Qed.

(** X13: on a reachable tracker with a selection [s], [getDependants(all)]
    and [getPrerequisites(all)] never throw; each returns the set of the
    values held by the direct targets of [s]'s node ([all] false) or by all
    nodes reachable from it along at least one edge ([all] true). *)
Theorem get_related_selected d s all :
  tracker_reachable d -> selected_ d = Some s ->
  (exists l, getDependants d all = Ret l /\ NoDup l /\
     forall v, v ∈ l <-> exists a b, find_value (dependants_ d) s = Some a /\
       value_of (dependants_ d) b = Some v /\
       (if all then reaches_plus (dependants_ d) a b else b ∈ targets_of (dependants_ d) a)) /\
  (exists l, getPrerequisites d all = Ret l /\ NoDup l /\
     forall v, v ∈ l <-> exists a b, find_value (prerequisites_ d) s = Some a /\
       value_of (prerequisites_ d) b = Some v /\
       (if all then reaches_plus (prerequisites_ d) a b else b ∈ targets_of (prerequisites_ d) a)).
Proof.
  intros Hr Hs. pose proof (reachable_tracker_ok d Hr) as Hok. pose proof Hok as Hok'.
  destruct Hok as (_ & _ & _ & Hokd & Hokp & _ & Hsel & _).
  destruct (in_storage_find d s Hok' (Hsel s Hs)) as (sa & sb & Esa & Esb).
  unfold getDependants, getPrerequisites. rewrite Hs, Esa, Esb. split.
  - destruct (get_related_spec _ s all sa Hokd Esa) as (l & Hl & Hnd & Hel).
    exists l. split_and!; try done. intros v. rewrite Hel. split.
    + intros (b & ? & ?). eauto.
    + intros (a & b & [= <-] & ? & ?). eauto.
  - destruct (get_related_spec _ s all sb Hokp Esb) as (l & Hl & Hnd & Hel).
    exists l. split_and!; try done. intros v. rewrite Hel. split.
    + intros (b & ? & ?). eauto.
    + intros (a & b & [= <-] & ? & ?). eauto.
Qed.

(** X14: on a reachable tracker with a selection, a successful
    [addDependant(v)] followed by [removeDependant(v)] succeeds and takes
    the edges back to what [insert(v)] left: for every two values the
    number of edges between their nodes is the same in both DAGs, and the
    set and the selection are those after [insert(v)]. *)
Theorem addDependant_removeDependant d v :
  tracker_reachable d -> selected_ d <> None -> (addDependant d v).2 = Ret tt ->
  (removeDependant (addDependant d v).1 v).2 = Ret tt /\
  storage_ (removeDependant (addDependant d v).1 v).1 = storage_ (t_insert d v).1 /\
  selected_ (removeDependant (addDependant d v).1 v).1 = selected_ d /\
  forall x y,
    vcount (dependants_ (removeDependant (addDependant d v).1 v).1) x y =
      vcount (dependants_ (t_insert d v).1) x y /\
    vcount (prerequisites_ (removeDependant (addDependant d v).1 v).1) x y =
      vcount (prerequisites_ (t_insert d v).1) x y.
Proof.
  intros Hr Hsel Hadd. pose proof (reachable_tracker_ok d Hr) as Hok.
  destruct (selected_ d) as [s|] eqn:Es; [|done].
  destruct (t_insert_ok d v Hok) as (Hok1 & Hv1 & Hs1 & _).
  set (d1 := (t_insert d v).1) in *.
  assert (Hsel1 : selected_ d1 <> None) by congruence.
  unfold addDependant in Hadd |- *. fold d1 in Hadd |- *.
  destruct (addDependant_it_ok d1 v Hok1 Hv1 Hsel1) as (Hok2 & Hs2 & Hsel2 & [[_ Hc2]|Hth]).
  2:{ rewrite Hth in Hadd. done. }
  set (d2 := (addDependant_it d1 v).1) in *.
  unfold removeDependant.
  assert (Hf : t_find d2 v = Some v) by (unfold t_find; rewrite decide_True; congruence).
  rewrite Hf.
  assert (Hsel2' : selected_ d2 <> None) by congruence.
  destruct (removeDependant_it_ok d2 (Some v) Hok2 Hsel2' ltac:(intros ? [= <-]; congruence))
    as (Hok3 & Hs3 & Hsel3 & Hr3 & Hc3).
  split_and!; try congruence.
  assert (Hdep : forall x y, vcount (dependants_ (removeDependant_it d2 (Some v)).1) x y =
                             vcount (dependants_ d1) x y).
  { intros x y. rewrite (Hc3 s v x y) by congruence. rewrite (Hc2 s x y) by congruence.
    destruct (bool_decide _); lia. }
  intros x y. split; [done|].
  destruct Hok3 as (_ & _ & _ & _ & _ & _ & _ & Hm3). destruct Hok1 as (_ & _ & _ & _ & _ & _ & _ & Hm1).
  rewrite <- Hm3, <- Hm1. done.
Qed.

End ExtraTrackerProofs.

(** ** Duplicate values and undefined [erase] *)

(** X15: [DAG::insert] compares with [Node::operator==], so a value whose
    node has been linked is inserted again: in [dag_chain] the node of 1
    has score 2, and [insert(1)] returns true and adds a second node
    holding 1. The DAG reached holds 1 twice. *)
Theorem insert_duplicate_value :
  (insert dag_chain 1%nat 3%nat).2 = true /\
  values (insert dag_chain 1%nat 3%nat).1 = [1; 0; 1]%nat /\
  reachable (insert dag_chain 1%nat 3%nat).1.
Proof.
  split_and!; [vm_compute; reflexivity|vm_compute; reflexivity|].
  exists (ops_chain ++ [OpInsert 1%nat 3%nat]). vm_compute. reflexivity.
Qed.


(** ** Instances of the further properties *)


Lemma linked_val_reaches_witness :
  dag_ok dag_chain /\
  (linked_val dag_chain 0%nat 1%nat = true <->
   exists a b, find_value dag_chain 0%nat = Some a /\ find_value dag_chain 1%nat = Some b /\
               reaches dag_chain a b).
Proof.
  assert (Hr : dag_ok dag_chain) by (apply reachable_dag_ok; exists ops_chain; vm_compute; reflexivity).
  split; [exact Hr|]. exact (linked_val_reaches dag_chain 0%nat 1%nat Hr).
Defined.

Lemma unlink_result_witness :
  dag_ok dag_chain /\ 2%nat ∈ addrs dag_chain /\
  (unlink dag_chain 1%nat 2%nat).2 = Ret (bool_decide (2%nat ∈ targets_of dag_chain 1%nat)).
Proof.
  assert (Hr : dag_ok dag_chain) by (apply reachable_dag_ok; exists ops_chain; vm_compute; reflexivity).
  assert (H2 : 2%nat ∈ addrs dag_chain) by (apply (bool_decide_unpack _); vm_compute; reflexivity).
  split_and!; [exact Hr|exact H2|]. exact (proj1 (unlink_result dag_chain 1%nat 2%nat Hr H2)).
Defined.

Lemma link_unlink_restores_witness :
  dag_ok dag_chain /\ 1%nat ∈ addrs dag_chain /\ 2%nat ∈ addrs dag_chain /\
  (link dag_chain 1%nat 2%nat).2 = Ret tt /\
  (unlink (link dag_chain 1%nat 2%nat).1 1%nat 2%nat).2 = Ret true.
Proof.
  assert (Hr : dag_ok dag_chain) by (apply reachable_dag_ok; exists ops_chain; vm_compute; reflexivity).
  assert (H1 : 1%nat ∈ addrs dag_chain) by (apply (bool_decide_unpack _); vm_compute; reflexivity).
  assert (H2 : 2%nat ∈ addrs dag_chain) by (apply (bool_decide_unpack _); vm_compute; reflexivity).
  assert (Hl : (link dag_chain 1%nat 2%nat).2 = Ret tt) by (vm_compute; reflexivity).
  split_and!; [exact Hr|exact H1|exact H2|exact Hl|].
  exact (proj1 (link_unlink_restores dag_chain 1%nat 2%nat Hr H1 H2 Hl)).
Defined.

Lemma erase_range_dangling_witness :
  NoDup (addrs dag_chain) /\ (1 <= 1 < 2)%nat /\ (0 < 1 \/ 2 <= 0)%nat /\
  dag_chain !! 1%nat = Some (mkNode 2%nat 1%nat 2 []) /\
  dag_chain !! 0%nat = Some (mkNode 1%nat 0%nat 1 [2%nat]) /\
  node_addr (mkNode 2%nat 1%nat 2 []) ∈ targets_ (mkNode 1%nat 0%nat 1 [2%nat]) /\
  ~ closed (erase_range dag_chain 1 2).
Proof.
  assert (Hnd : NoDup (addrs dag_chain)) by (apply (bool_decide_unpack _); vm_compute; reflexivity).
  assert (Hp : (1 <= 1 < 2)%nat) by lia.
  assert (Hq : (0 < 1 \/ 2 <= 0)%nat) by lia.
  assert (Hn : dag_chain !! 1%nat = Some (mkNode 2%nat 1%nat 2 [])) by (vm_compute; reflexivity).
  assert (Hm : dag_chain !! 0%nat = Some (mkNode 1%nat 0%nat 1 [2%nat])) by (vm_compute; reflexivity).
  assert (Ht : node_addr (mkNode (V:=nat) 2%nat 1%nat 2 []) ∈ targets_ (mkNode 1%nat 0%nat 1 [2%nat]))
    by (apply (bool_decide_unpack _); vm_compute; reflexivity).
  exact (conj Hnd (conj Hp (conj Hq (conj Hn (conj Hm (conj Ht
    (erase_range_dangling dag_chain 1 2 1 0 _ _ Hnd Hp Hq Hn Hm Ht))))))).
Defined.

Lemma tracker_reachable_ok_witness : tracker_reachable tr_chain /\ tracker_ok tr_chain.
Proof.
  assert (Hr : tracker_reachable tr_chain) by (exists ops_tr_chain; vm_compute; reflexivity).
  split; [exact Hr|]. exact (tracker_reachable_ok tr_chain Hr).
Defined.

Lemma depends_reaches_witness :
  tracker_reachable tr_chain /\
  exists b, depends tr_chain 2%nat 0%nat = Ret b /\
    (b = true <-> exists a c, find_value (dependants_ tr_chain) 0%nat = Some a /\
                   find_value (dependants_ tr_chain) 2%nat = Some c /\ reaches (dependants_ tr_chain) a c) /\
    (b = true <-> exists a c, find_value (prerequisites_ tr_chain) 2%nat = Some a /\
                   find_value (prerequisites_ tr_chain) 0%nat = Some c /\ reaches (prerequisites_ tr_chain) a c).
Proof.
  assert (Hr : tracker_reachable tr_chain) by (exists ops_tr_chain; vm_compute; reflexivity).
  split; [exact Hr|]. exact (depends_reaches tr_chain 2%nat 0%nat Hr).
Defined.

Lemma tracker_calls_outcomes_witness :
  tracker_reachable tr_chain /\ selected_ tr_chain <> None /\
  (removeDependant tr_chain 1%nat).2 = Ret tt.
Proof.
  assert (Hr : tracker_reachable tr_chain) by (exists ops_tr_chain; vm_compute; reflexivity).
  assert (Hs : selected_ tr_chain <> None) by (vm_compute; discriminate).
  split_and!; [exact Hr|exact Hs|].
  exact (proj1 (proj2 (tracker_calls_outcomes tr_chain 1%nat Hr Hs))).
Defined.

Lemma get_related_selected_witness :
  tracker_reachable tr_chain /\ selected_ tr_chain = Some 0%nat /\
  exists l, getDependants tr_chain true = Ret l /\ NoDup l /\
     forall v, v ∈ l <-> exists a b, find_value (dependants_ tr_chain) 0%nat = Some a /\
       value_of (dependants_ tr_chain) b = Some v /\ reaches_plus (dependants_ tr_chain) a b.
Proof.
  assert (Hr : tracker_reachable tr_chain) by (exists ops_tr_chain; vm_compute; reflexivity).
  assert (Hs : selected_ tr_chain = Some 0%nat) by (vm_compute; reflexivity).
  split_and!; [exact Hr|exact Hs|].
  exact (proj1 (get_related_selected tr_chain 0%nat true Hr Hs)).
Defined.

Lemma addDependant_removeDependant_witness :
  tracker_reachable tr_chain /\ selected_ tr_chain <> None /\
  (addDependant tr_chain 3%nat).2 = Ret tt /\
  (removeDependant (addDependant tr_chain 3%nat).1 3%nat).2 = Ret tt.
Proof.
  assert (Hr : tracker_reachable tr_chain) by (exists ops_tr_chain; vm_compute; reflexivity).
  assert (Hs : selected_ tr_chain <> None) by (vm_compute; discriminate).
  assert (Ha : (addDependant tr_chain 3%nat).2 = Ret tt) by (vm_compute; reflexivity).
  split_and!; [exact Hr|exact Hs|exact Ha|].
  exact (proj1 (addDependant_removeDependant tr_chain 3%nat Hr Hs Ha)).
Defined.

